(** * Forest-fire cellular automaton: update rule, row partitioning, setup

    A shallow embedding of the distributed forest-fire simulator
    ([distribuido/forest_fire_simulacao.py], [distribuido/worker.py]) and of
    the sequential reference step ([sequencial/forest_fire_sequencial.py]).

    - A NumPy 2-D [int8] array of shape [(rows, Ny)] is a [list (list Z)]
      of [rows] rows together with its column count [Ny]; a 1-D array is a
      [list Z].
    - The global NumPy random generator is a stream of draws with a cursor;
      [np.random.random()] reads the draw under the cursor and advances it.
      Draws and the probabilities [p], [f] are rationals: the code only
      compares them with [<].
    - Python integers are [Z]; [//] is floor division, i.e. [Z.div]. *)

From Stdlib Require Import ZArith QArith.
From stdpp Require Import base option list gmap.

Local Open Scope Z_scope.

(** ** Cell states *)

Definition EMPTY : Z := 0.
Definition TREE : Z := 1.
Definition BURN : Z := 2.

(** A cell holds one of the three codes. *)
Definition valid_cell (c : Z) : Prop := c = EMPTY ∨ c = TREE ∨ c = BURN.

(** [a] is a well-formed array of [Ny] columns. *)
Definition has_cols (Ny : nat) (a : list (list Z)) : Prop :=
  Forall (λ r, length r = Ny) a.

Definition valid_grid (a : list (list Z)) : Prop :=
  Forall (Forall valid_cell) a.

(** ** The random generator *)

Record rng := Rng { stream : nat → Q; pos : nat }.

(** [np.random.random()] *)
Definition random (g : rng) : Q * rng :=
  (stream g (pos g), Rng (stream g) (S (pos g))).

(** Every draw lies in the half-open interval [[0, 1)]. *)
Definition rng_ok (g : rng) : Prop :=
  ∀ n, (0 <= stream g n)%Q ∧ (stream g n < 1)%Q.

(** [x < y] on draws and probabilities. *)
Definition Qltb (x y : Q) : bool :=
  Qnum x * Zpos (Qden y) <? Qnum y * Zpos (Qden x).

(** ** Array primitives *)

(** [a[i, j]], for indices that the caller keeps inside the array; the
    default is never reached on a well-formed array (see [at2_lookup]). *)
Definition at2 (a : list (list Z)) (i j : Z) : Z :=
  default EMPTY (a !! Z.to_nat i ≫= λ r, r !! Z.to_nat j).

(** [a[i, j] = v] *)
Definition set2 (a : list (list Z)) (i j : nat) (v : Z) : list (list Z) :=
  alter (λ r, <[j := v]> r) i a.

(** The cell [(i, j)] of an array, when it exists. *)
Definition cell {A} (a : list (list A)) (i j : nat) : option A :=
  a !! i ≫= λ r, r !! j.

(** [np.full((1, Ny), v)] *)
Definition full_row (Ny : nat) (v : Z) : list (list Z) := [replicate Ny v].

(** [ghost.reshape(1, Ny)]: raises unless the array holds [Ny] elements. *)
Definition reshape_row (Ny : nat) (ghost : list Z) : option (list (list Z)) :=
  if decide (length ghost = Ny) then Some [ghost] else None.

(** [np.vstack([a, b, c])] *)
Definition vstack3 (a b c : list (list Z)) : list (list Z) := a ++ b ++ c.

(** ** update_block (distribuido/forest_fire_simulacao.py) *)

(** The inner [for dj in (-1, 0, 1)] of the neighbour scan; the result is
    the flag [burning] when the loop is left. *)
Fixpoint scan_dj (padded : list (list Z)) (Ny : nat) (i j : nat) (di : Z)
    (djs : list Z) : bool :=
  match djs with
  | [] => false
  | dj :: rest =>
      if (di =? 0) && (dj =? 0) then scan_dj padded Ny i j di rest
      else
        let ni := Z.of_nat i + 1 + di in
        let nj := Z.of_nat j + dj in
        if (nj <? 0) || (nj >=? Z.of_nat Ny) then scan_dj padded Ny i j di rest
        else if at2 padded ni nj =? BURN then true
        else scan_dj padded Ny i j di rest
  end.

(** The outer [for di in (-1, 0, 1)], left as soon as [burning] is set. *)
Fixpoint scan_di (padded : list (list Z)) (Ny : nat) (i j : nat)
    (dis : list Z) : bool :=
  match dis with
  | [] => false
  | di :: rest =>
      if scan_dj padded Ny i j di [-1; 0; 1] then true
      else scan_di padded Ny i j rest
  end.

Definition moore_burning (padded : list (list Z)) (Ny i j : nat) : bool :=
  scan_di padded Ny i j [-1; 0; 1].

(** The body of the [for j] loop: reads the snapshot [padded], writes the
    output array [new], may consume one draw. *)
Definition update_cell (padded : list (list Z)) (Ny : nat) (p f : Q)
    (i j : nat) (st : list (list Z) * rng) : list (list Z) * rng :=
  let '(new, g) := st in
  let s := at2 padded (Z.of_nat i + 1) (Z.of_nat j) in
  if s =? BURN then (set2 new i j EMPTY, g)
  else if s =? TREE then
    if moore_burning padded Ny i j then (set2 new i j BURN, g)
    else
      let '(r, g') := random g in
      if Qltb r f then (set2 new i j BURN, g')
      else (set2 new i j TREE, g')
  else
    let '(r, g') := random g in
    if Qltb r p then (set2 new i j TREE, g')
    else (set2 new i j EMPTY, g').

Definition update_row (padded : list (list Z)) (Ny : nat) (p f : Q)
    (i : nat) (st : list (list Z) * rng) : list (list Z) * rng :=
  foldl (λ st j, update_cell padded Ny p f i j st) st (seq 0 Ny).

Definition update_rows (padded : list (list Z)) (Ny : nat) (p f : Q)
    (rows : nat) (st : list (list Z) * rng) : list (list Z) * rng :=
  foldl (λ st i, update_row padded Ny p f i st) st (seq 0 rows).

(** [block] has shape [(length block, Ny)]; a ghost row is [None] when the
    worker has no neighbour on that side. *)
Definition update_block (Ny : nat) (block : list (list Z))
    (top_ghost bottom_ghost : option (list Z)) (p f : Q) (g : rng)
    : option (list (list Z) * rng) :=
  let rows := length block in
  pad_top ← match top_ghost with
            | None => Some (full_row Ny EMPTY)
            | Some t => reshape_row Ny t
            end;
  pad_bottom ← match bottom_ghost with
               | None => Some (full_row Ny EMPTY)
               | Some b => reshape_row Ny b
               end;
  let padded := vstack3 pad_top block pad_bottom in
  let new := block in
  Some (update_rows padded Ny p f rows (new, g)).

(** ** step (sequencial/forest_fire_sequencial.py) *)

(** NumPy basic slices used by [step]: [[:]], [[1:]] and [[:-1]]. *)
Inductive slice := SlAll | SlFrom1 | SlToLast.

(** First index selected by a slice on an axis of length [n]. *)
Definition slice_lo (s : slice) (n : nat) : nat :=
  match s with SlFrom1 => 1 `min` n | _ => 0 end%nat.

(** One past the last index selected by a slice on an axis of length [n]. *)
Definition slice_hi (s : slice) (n : nat) : nat :=
  match s with SlToLast => n - 1 | _ => n end%nat.

Definition slice1 {A} (s : slice) (l : list A) : list A :=
  take (slice_hi s (length l) - slice_lo s (length l))
       (drop (slice_lo s (length l)) l).

(** [a[sr, sc]] read as a value. *)
Definition slice2 {A} (sr sc : slice) (a : list (list A)) : list (list A) :=
  slice1 sc <$> slice1 sr a.

(** [mask[sr, sc] |= src]: the selected region of [mask] is or-ed in place
    with [src], whose shape is that of the region. *)
Definition ior_slice (sr sc : slice) (mask src : list (list bool))
    : list (list bool) :=
  imap (λ i r,
    imap (λ j b,
      if decide (slice_lo sr (length mask) ≤ i < slice_hi sr (length mask) ∧
                 slice_lo sc (length r) ≤ j < slice_hi sc (length r))%nat
      then b || default false
                  (src !! (i - slice_lo sr (length mask))%nat
                     ≫= λ sr', sr' !! (j - slice_lo sc (length r))%nat)
      else b) r) mask.

(** [grid == v] *)
Definition eq_mask (v : Z) (grid : list (list Z)) : list (list bool) :=
  (λ r : list Z, (λ c, c =? v) <$> r) <$> grid.

(** [np.zeros_like(g, dtype=bool)] *)
Definition zeros_like {A} (g : list (list A)) : list (list bool) :=
  (λ r : list A, (λ _, false) <$> r) <$> g.

(** Elementwise [a & b]. *)
Definition and_mask (a b : list (list bool)) : list (list bool) :=
  zip_with (zip_with andb) a b.

(** [new[m] = v] *)
Definition assign_mask (m : list (list bool)) (v : Z) (new : list (list Z))
    : list (list Z) :=
  zip_with (zip_with (λ (b : bool) c, if b then v else c)) m new.

(** [np.random.random(size=(Nx, Ny))]: [Nx * Ny] draws in row-major order. *)
Definition random_sample (Nx Ny : nat) (g : rng) : list (list Q) * rng :=
  ((λ i, (λ j, stream g (pos g + i * Ny + j)%nat) <$> seq 0 Ny) <$> seq 0 Nx,
   Rng (stream g) (pos g + Nx * Ny)%nat).

(** [sample < x] *)
Definition lt_mask (sample : list (list Q)) (x : Q) : list (list bool) :=
  (λ r : list Q, (λ d, Qltb d x) <$> r) <$> sample.

Definition neighbour_mask (g : list (list bool)) : list (list bool) :=
  let mask := zeros_like g in
  let mask := ior_slice SlToLast SlAll mask (slice2 SlFrom1 SlAll g) in
  let mask := ior_slice SlFrom1 SlAll mask (slice2 SlToLast SlAll g) in
  let mask := ior_slice SlAll SlToLast mask (slice2 SlAll SlFrom1 g) in
  let mask := ior_slice SlAll SlFrom1 mask (slice2 SlAll SlToLast g) in
  let mask := ior_slice SlToLast SlToLast mask (slice2 SlFrom1 SlFrom1 g) in
  let mask := ior_slice SlToLast SlFrom1 mask (slice2 SlFrom1 SlToLast g) in
  let mask := ior_slice SlFrom1 SlToLast mask (slice2 SlToLast SlFrom1 g) in
  let mask := ior_slice SlFrom1 SlFrom1 mask (slice2 SlToLast SlToLast g) in
  mask.

(** [grid] has shape [(length grid, Ny)]. *)
Definition step (Ny : nat) (grid : list (list Z)) (p f : Q) (g0 : rng)
    : list (list Z) * rng :=
  let Nx := length grid in
  let new := grid in
  let new := assign_mask (eq_mask BURN grid) EMPTY new in
  let g := eq_mask BURN grid in
  let mask := neighbour_mask g in
  let tree_mask := eq_mask TREE grid in
  let catch := and_mask tree_mask mask in
  let '(sample_f, g1) := random_sample Nx Ny g0 in
  let ignite := and_mask (lt_mask sample_f f) tree_mask in
  let '(sample_p, g2) := random_sample Nx Ny g1 in
  let grow := and_mask (lt_mask sample_p p) (eq_mask EMPTY grid) in
  let new := assign_mask catch BURN new in
  let new := assign_mask ignite BURN new in
  let new := assign_mask grow TREE new in
  (new, g2).

(** ** The row range of a worker (distribuido/worker.py, worker_main) *)

Inductive exn :=
  | ZeroDivisionError
  | IndexError
  | ValueError.

(** [rows_per], [i0], [i1] as [worker_main] computes them from
    [(rank, num_procs, Nx)]; the only failure is the division. *)
Definition worker_rows (rank num_procs Nx : Z) : exn + (Z * Z) :=
  if num_procs =? 0 then inl ZeroDivisionError
  else
    let rows_per := Nx / num_procs in
    let i0 := rank * rows_per in
    let i1 := if rank =? num_procs - 1 then Nx else (rank + 1) * rows_per in
    inr (i0, i1).

(** ** One step of the worker loop (distribuido/worker.py, worker_main) *)

(** [grid[0, :]]; an [IndexError] on a block without rows. *)
Definition top_row (grid : list (list Z)) : option (list Z) := grid !! 0%nat.

(** [grid[-1, :]] *)
Definition bottom_row (grid : list (list Z)) : option (list Z) := last grid.

(** The step of worker [rank] among the workers [ws] (block and generator
    of every rank, as they are when the step starts).  A row sent with
    [send_row] on one end of a channel is the row [recv_row] returns on the
    other end: the upper neighbour sends its [bottom_row] down, the lower
    neighbour sends its [top_row] up.  Rank 0 has no [up_sock], the last
    rank has no [down_sock]. *)
Definition worker_step (Ny : nat) (p f : Q)
    (ws : list (list (list Z) * rng)) (rank : nat)
    (w : list (list Z) * rng) : option (list (list Z) * rng) :=
  let '(grid, g) := w in
  let num_procs := length ws in
  _ ← top_row grid;
  _ ← bottom_row grid;
  topGhost ← (if decide (0 < rank)%nat
              then up ← ws !! (rank - 1)%nat; Some <$> bottom_row up.1
              else Some None);
  bottomGhost ← (if decide (rank < num_procs - 1)%nat
                 then down ← ws !! (rank + 1)%nat; Some <$> top_row down.1
                 else Some None);
  update_block Ny grid topGhost bottomGhost p f g.

(** All workers take one step. *)
Definition distributed_step (Ny : nat) (p f : Q)
    (ws : list (list (list Z) * rng)) : option (list (list (list Z) * rng)) :=
  mapM id (imap (worker_step Ny p f ws) ws).

(** ** update_block on a store of arrays

    The same function with its arrays held in a store and passed by
    reference, so that what it allocates, reads and writes is explicit. *)

Inductive ndarray :=
  | Arr1 (v : list Z)
  | Arr2 (ncols : nat) (rows : list (list Z)).

(** The elements of an array in row-major order. *)
Definition elements (a : ndarray) : list Z :=
  match a with Arr1 v => v | Arr2 _ rows => concat rows end.

(** A new array at an unused reference. *)
Definition alloc (h : gmap nat ndarray) (a : ndarray) : nat * gmap nat ndarray :=
  let l := fresh (dom h) in (l, <[l := a]> h).

(** The rows of the 2-D array behind [l]. *)
Definition load2 (h : gmap nat ndarray) (l : nat) : list (list Z) :=
  match h !! l with Some (Arr2 _ rows) => rows | _ => [] end.

(** [l[i, j] = v] *)
Definition store2 (h : gmap nat ndarray) (l : nat) (i j : nat) (v : Z)
    : gmap nat ndarray :=
  alter (λ a, match a with
              | Arr2 n rows => Arr2 n (set2 rows i j v)
              | Arr1 _ => a
              end) l h.

(** [l.reshape(1, Ny)]: a view of the same buffer, no copy. *)
Definition reshape_view (h : gmap nat ndarray) (Ny : nat) (l : nat) : option nat :=
  a ← h !! l;
  if decide (length (elements a) = Ny) then Some l else None.

(** What a [(1, Ny)] view of [l] reads. *)
Definition load_row (h : gmap nat ndarray) (l : nat) : list (list Z) :=
  match h !! l with Some a => [elements a] | None => [] end.

Definition update_cell_heap (padded new : nat) (Ny : nat) (p f : Q)
    (i j : nat) (st : gmap nat ndarray * rng) : gmap nat ndarray * rng :=
  let '(h, g) := st in
  let s := at2 (load2 h padded) (Z.of_nat i + 1) (Z.of_nat j) in
  if s =? BURN then (store2 h new i j EMPTY, g)
  else if s =? TREE then
    if moore_burning (load2 h padded) Ny i j then (store2 h new i j BURN, g)
    else
      let '(r, g') := random g in
      if Qltb r f then (store2 h new i j BURN, g')
      else (store2 h new i j TREE, g')
  else
    let '(r, g') := random g in
    if Qltb r p then (store2 h new i j TREE, g')
    else (store2 h new i j EMPTY, g').

Definition update_row_heap (padded new : nat) (Ny : nat) (p f : Q)
    (i : nat) (st : gmap nat ndarray * rng) : gmap nat ndarray * rng :=
  foldl (λ st j, update_cell_heap padded new Ny p f i j st) st (seq 0 Ny).

Definition update_rows_heap (padded new : nat) (Ny : nat) (p f : Q)
    (rows : nat) (st : gmap nat ndarray * rng) : gmap nat ndarray * rng :=
  foldl (λ st i, update_row_heap padded new Ny p f i st) st (seq 0 rows).

(** Returns the reference of the new block, the store and the generator. *)
Definition update_block_heap (h : gmap nat ndarray) (block : nat)
    (top_ghost bottom_ghost : option nat) (p f : Q) (g : rng)
    : option (nat * gmap nat ndarray * rng) :=
  b ← h !! block;
  match b with
  | Arr1 _ => None
  | Arr2 Ny block_rows =>
      let rows := length block_rows in
      '(pad_top, h) ← match top_ghost with
                      | None => Some (alloc h (Arr2 Ny (full_row Ny EMPTY)))
                      | Some t => l ← reshape_view h Ny t; Some (l, h)
                      end;
      '(pad_bottom, h) ← match bottom_ghost with
                         | None => Some (alloc h (Arr2 Ny (full_row Ny EMPTY)))
                         | Some b => l ← reshape_view h Ny b; Some (l, h)
                         end;
      let '(padded, h) :=
        alloc h (Arr2 Ny (vstack3 (load_row h pad_top) (load2 h block)
                                  (load_row h pad_bottom))) in
      let '(new, h) := alloc h (Arr2 Ny (load2 h block)) in
      let '(h, g) := update_rows_heap padded new Ny p f rows (h, g) in
      Some (new, h, g)
  end.

(** The next state of cell [(i, j)] as a function of the snapshot [padded]
    and of the draw [r] that the cell may consume. *)
Definition next_state (padded : list (list Z)) (Ny : nat) (p f : Q)
    (i j : nat) (r : Q) : Z :=
  let s := at2 padded (Z.of_nat i + 1) (Z.of_nat j) in
  if s =? BURN then EMPTY
  else if s =? TREE then
    if moore_burning padded Ny i j then BURN
    else if Qltb r f then BURN else TREE
  else if Qltb r p then TREE else EMPTY.

(** ** Connecting to the upper neighbour (distribuido/worker.py) *)

(** The errors [s.connect] can raise; both are subclasses of [Exception]. *)
Inductive connect_error :=
  | ConnectionRefusedError
  | OSError (errno : Z).

(** What one call of [s.connect] does. *)
Inductive attempt :=
  | Accepted
  | Raises (e : connect_error).

Inductive connect_state :=
  | Trying (sleeps : nat)        (* inside [while True] *)
  | UpConnected (sleeps : nat)   (* [up_sock = s; break] *)
  | Aborted (e : connect_error). (* an exception left the loop *)

(** [time.sleep(0.05)], in milliseconds. *)
Definition retry_delay_ms : nat := 50.

(** The [while True] loop, run against the outcomes of the successive
    [s.connect] calls; [sleeps] counts the [time.sleep(0.05)] calls so far.
    The handler is [except Exception], which every [connect_error] matches. *)
Fixpoint connect_loop (outcomes : list attempt) (sleeps : nat) : connect_state :=
  match outcomes with
  | [] => Trying sleeps
  | Accepted :: _ => UpConnected sleeps
  | Raises _ :: rest => connect_loop rest (S sleeps)
  end.

(** [if rank > 0: ...]: rank 0 makes no attempt and keeps [up_sock = None]. *)
Definition connect_up (rank : Z) (outcomes : list attempt) : option connect_state :=
  if 0 <? rank then Some (connect_loop outcomes 0) else None.

(** The claimed policy: only a refused connection is retried, any other
    error is fatal. *)
Fixpoint connect_loop_claimed (outcomes : list attempt) (sleeps : nat)
    : connect_state :=
  match outcomes with
  | [] => Trying sleeps
  | Accepted :: _ => UpConnected sleeps
  | Raises ConnectionRefusedError :: rest => connect_loop_claimed rest (S sleeps)
  | Raises e :: _ => Aborted e
  end.

(** ** The loops of worker_main and of the sequential run *)

(** [mask.sum()]: the number of set flags of a mask. *)
Definition mask_sum (m : list (list bool)) : nat :=
  sum_list ((λ r : list bool,
               sum_list ((λ b : bool, if b then 1%nat else 0%nat) <$> r)) <$> m).

(** [(grid == v).sum()]: the number of cells of [grid] that hold [v]. *)
Definition count_code (v : Z) (grid : list (list Z)) : nat :=
  mask_sum (eq_mask v grid).

(** [np.where(np.random.random((Nx, Ny)) < d0, TREE, EMPTY)]: the initial
    forest, a tree where the draw of the cell is below the density [d0]. *)
Definition init_grid (Nx Ny : nat) (d0 : Q) (g : rng) : list (list Z) * rng :=
  let '(sample, g') := random_sample Nx Ny g in
  ((λ r : list bool, (λ b : bool, if b then TREE else EMPTY) <$> r)
     <$> lt_mask sample d0, g').

(** The block a worker starts from: [my_rows = i1 - i0] rows of the initial
    forest; NumPy refuses a negative number of rows. *)
Definition init_block (rank num_procs Nx : Z) (Ny : nat) (d0 : Q) (g : rng)
    : exn + (list (list Z) * rng) :=
  match worker_rows rank num_procs Nx with
  | inl e => inl e
  | inr (i0, i1) =>
      let my_rows := i1 - i0 in
      if my_rows <? 0 then inl ValueError
      else inr (init_grid (Z.to_nat my_rows) Ny d0 g)
  end.

(** [grid[:, :] = new_grid]: every element of [grid] is overwritten with
    the element of [new_grid] at its position; the two have one shape. *)
Definition assign_full (grid new_grid : list (list Z)) : list (list Z) :=
  zip_with (zip_with (λ _ v : Z, v)) grid new_grid.

(** One iteration of the [for step in range(nsteps)] loop, for all workers:
    ghost-row exchange and [update_block], then the copy into [grid]. *)
Definition loop_iteration (Ny : nat) (p f : Q)
    (ws : list (list (list Z) * rng)) : option (list (list (list Z) * rng)) :=
  outs ← distributed_step Ny p f ws;
  Some (zip_with (λ w out, (assign_full w.1 out.1, out.2)) ws outs).

(** The whole loop of the workers. *)
Fixpoint worker_loop (Ny : nat) (p f : Q) (nsteps : nat)
    (ws : list (list (list Z) * rng)) : option (list (list (list Z) * rng)) :=
  match nsteps with
  | O => Some ws
  | S n => ws' ← loop_iteration Ny p f ws; worker_loop Ny p f n ws'
  end.

(** The loop of the sequential [run]: [grid = step(grid, p, f)], then the
    number of burning cells is appended to [burn_counts]. *)
Fixpoint run_loop (Ny : nat) (p f : Q) (nsteps : nat)
    (st : list (list Z) * rng * list nat) : list (list Z) * rng * list nat :=
  match nsteps with
  | O => st
  | S n =>
      let '(grid, g, burn_counts) := st in
      let '(grid', g') := step Ny grid p f g in
      run_loop Ny p f n (grid', g', burn_counts ++ [count_code BURN grid'])
  end.

(** ** Rows on the wire (distribuido/worker.py)

    The receiving end of a connected socket is the list of the segments
    still to be read, in the order of arrival; each segment holds at least
    one byte, and the list is empty once the peer has closed and all data
    have been read.  A byte is an integer in [[0, 256)]. *)

(** One byte of [row.tobytes()], for an [int8] array: two's complement. *)
Definition int8_to_byte (v : Z) : Z := v mod 256.

(** One element of [np.frombuffer(data, dtype=np.int8)]. *)
Definition byte_to_int8 (b : Z) : Z := if b <? 128 then b else b - 256.

Definition tobytes (row : list Z) : list Z := int8_to_byte <$> row.

Definition frombuffer (data : list Z) : list Z := byte_to_int8 <$> data.

(** [sock.recv(bufsize)]: at most [bufsize] bytes of the first segment;
    [b''] when no segment is left. *)
Definition recv (sock : list (list Z)) (bufsize : nat)
    : list Z * list (list Z) :=
  match sock with
  | [] => ([], [])
  | seg :: rest =>
      (take bufsize seg,
       if decide (bufsize < length seg)%nat then drop bufsize seg :: rest
       else rest)
  end.

(** What a receive returns: the data and the socket afterwards, or the
    [ConnectionError] that [recv_exact] raises. *)
Inductive received (A : Type) :=
  | Received (data : A) (sock : list (list Z))
  | ConnectionError.
Arguments Received {A} data sock.
Arguments ConnectionError {A}.

(** The [while len(data) < n] loop of [recv_exact]; [fuel] bounds the
    number of iterations, [None] means the bound was reached. *)
Fixpoint recv_exact_loop (fuel : nat) (sock : list (list Z)) (n : nat)
    (data : list Z) : option (received (list Z)) :=
  if decide (length data < n)%nat then
    match fuel with
    | O => None
    | S fuel' =>
        let '(chunk, sock') := recv sock (n - length data) in
        if decide (chunk = []) then Some ConnectionError
        else recv_exact_loop fuel' sock' n (data ++ chunk)
    end
  else Some (Received data sock).

(** [recv_exact(sock, n)]; every iteration adds a byte or raises, so [n]
    iterations are enough. *)
Definition recv_exact (sock : list (list Z)) (n : nat)
    : option (received (list Z)) :=
  recv_exact_loop n sock n [].

(** [send_row(sock, row)], seen from the receiving end: the bytes of the
    row arrive behind the data already on their way. *)
Definition send_row (sock : list (list Z)) (row : list Z) : list (list Z) :=
  if decide (row = []) then sock else sock ++ [tobytes row].

(** [recv_row(sock, Ny)] *)
Definition recv_row (sock : list (list Z)) (Ny : nat)
    : option (received (list Z)) :=
  match recv_exact sock Ny with
  | Some (Received data sock') => Some (Received (frombuffer data) sock')
  | Some ConnectionError => Some ConnectionError
  | None => None
  end.

(** [k] calls of [recv_row] on one socket, one per step of the loop. *)
Fixpoint recv_rows (k : nat) (sock : list (list Z)) (Ny : nat)
    : option (received (list (list Z))) :=
  match k with
  | O => Some (Received [] sock)
  | S k' =>
      match recv_row sock Ny with
      | Some (Received row sock') =>
          match recv_rows k' sock' Ny with
          | Some (Received rows sock'') => Some (Received (row :: rows) sock'')
          | other => other
          end
      | Some ConnectionError => Some ConnectionError
      | None => None
      end
  end.

(** The values an [int8] array holds. *)
Definition is_int8 (v : Z) : Prop := -128 ≤ v < 128.

(** ** The threaded variant (paralelo/forest_fire_paralelo.py)

    A thread reads the shared [grid], writes its rows of the shared
    [new_grid] and draws from the global generator; between two barriers
    the main thread copies [new_grid] into [grid]. *)

(** The inner [for dj in (-1, 0, 1)] of the neighbour scan of a thread. *)
Fixpoint thread_scan_dj (grid : list (list Z)) (Ny : nat) (ni : Z) (j : nat)
    (di : Z) (djs : list Z) : bool :=
  match djs with
  | [] => false
  | dj :: rest =>
      let nj := Z.of_nat j + dj in
      if (di =? 0) && (dj =? 0) then thread_scan_dj grid Ny ni j di rest
      else if (nj <? 0) || (nj >=? Z.of_nat Ny)
           then thread_scan_dj grid Ny ni j di rest
      else if at2 grid ni nj =? BURN then true
      else thread_scan_dj grid Ny ni j di rest
  end.

(** The outer [for di in (-1, 0, 1)]: rows outside the grid are skipped. *)
Fixpoint thread_scan_di (grid : list (list Z)) (Nx Ny : nat) (i j : nat)
    (dis : list Z) : bool :=
  match dis with
  | [] => false
  | di :: rest =>
      let ni := Z.of_nat i + di in
      if (ni <? 0) || (ni >=? Z.of_nat Nx)
      then thread_scan_di grid Nx Ny i j rest
      else if thread_scan_dj grid Ny ni j di [-1; 0; 1] then true
      else thread_scan_di grid Nx Ny i j rest
  end.

(** The body of the [for j] loop of [Worker.run]. *)
Definition thread_cell (grid : list (list Z)) (Nx Ny : nat) (p f : Q)
    (i j : nat) (st : list (list Z) * rng) : list (list Z) * rng :=
  let '(new_grid, g) := st in
  let s := at2 grid (Z.of_nat i) (Z.of_nat j) in
  if s =? BURN then (set2 new_grid i j EMPTY, g)
  else if s =? TREE then
    if thread_scan_di grid Nx Ny i j [-1; 0; 1]
    then (set2 new_grid i j BURN, g)
    else
      let '(r, g') := random g in
      if Qltb r f then (set2 new_grid i j BURN, g')
      else (set2 new_grid i j TREE, g')
  else
    let '(r, g') := random g in
    if Qltb r p then (set2 new_grid i j TREE, g')
    else (set2 new_grid i j EMPTY, g').

(** The work of one thread in one step: [for i in range(i0, i1)],
    [for j in range(Ny)]; [grid] has shape [(length grid, Ny)]. *)
Definition thread_rows (Ny : nat) (grid : list (list Z)) (p f : Q)
    (i0 i1 : nat) (st : list (list Z) * rng) : list (list Z) * rng :=
  foldl (λ st i,
           foldl (λ st j, thread_cell grid (length grid) Ny p f i j st)
             st (seq 0 Ny))
    st (seq i0 (i1 - i0)).

(** The rows [[i0, i1)] that [run] gives to thread [t] of [nthreads]. *)
Definition thread_range (Nx nthreads t : nat) : nat * nat :=
  let rows_per := (Nx / nthreads)%nat in
  let i0 := (t * rows_per)%nat in
  let i1 := if decide (t = nthreads - 1)%nat then Nx
            else ((t + 1) * rows_per)%nat in
  (i0, i1).

(** The threads run concurrently; [order] is the order in which the
    scheduler lets them do their rows in one step.  Then the main thread
    copies [new_grid] into [grid]. *)
Definition threads_step (Ny : nat) (p f : Q) (nthreads : nat)
    (order : list nat) (st : list (list Z) * list (list Z) * rng)
    : list (list Z) * list (list Z) * rng :=
  let '(grid, new_grid, g) := st in
  let '(new_grid', g') :=
    foldl (λ st t,
             let '(i0, i1) := thread_range (length grid) nthreads t in
             thread_rows Ny grid p f i0 i1 st)
      (new_grid, g) order in
  (assign_full grid new_grid', new_grid', g').

(** The [for step in range(nsteps)] loops of the threads and of the main
    thread, kept in step by the barrier; [orders] gives the order of the
    threads in each step. *)
Fixpoint threads_loop (Ny : nat) (p f : Q) (nthreads : nat)
    (orders : list (list nat)) (st : list (list Z) * list (list Z) * rng)
    : list (list Z) * list (list Z) * rng :=
  match orders with
  | [] => st
  | order :: rest =>
      threads_loop Ny p f nthreads rest (threads_step Ny p f nthreads order st)
  end.

(** Row [i] is one of the rows of thread [t]. *)
Definition in_range (Nx nthreads t i : nat) : Prop :=
  ((thread_range Nx nthreads t).1 ≤ i < (thread_range Nx nthreads t).2)%nat.

(** ** Notions used to state the properties *)

(** The block between its two boundary rows, an absent ghost row standing
    for a row of [EMPTY] cells. *)
Definition padded_block (Ny : nat) (block : list (list Z))
    (top_ghost bottom_ghost : option (list Z)) : list (list Z) :=
  default (replicate Ny EMPTY) top_ghost :: block
    ++ [default (replicate Ny EMPTY) bottom_ghost].

(** A ghost row, when present, has [Ny] cells. *)
Definition ghost_ok (Ny : nat) (ghost : option (list Z)) : Prop :=
  ∀ r, ghost = Some r → length r = Ny.

(** Some Moore neighbour of the cell at local position [(i, j)] holds
    [BURN] in [padded]; columns outside [0 .. Ny-1] do not exist. *)
Definition burning_neighbour (padded : list (list Z)) (Ny : nat) (i j : nat)
    : Prop :=
  ∃ di dj : Z,
    -1 ≤ di ≤ 1 ∧ -1 ≤ dj ≤ 1 ∧ (di, dj) ≠ (0, 0) ∧
    0 ≤ Z.of_nat j + dj < Z.of_nat Ny ∧
    cell padded (Z.to_nat (Z.of_nat i + 1 + di)) (Z.to_nat (Z.of_nat j + dj))
      = Some BURN.

(** The rows [start .. start+rows-1] of the next state when nothing grows
    and nothing ignites by itself ([p = 0], [f = 0]): no draw matters. *)
Definition quiet_step (padded : list (list Z)) (Ny : nat) (start rows : nat)
    : list (list Z) :=
  (λ i, (λ j, next_state padded Ny 0 0 i j 0) <$> seq 0 Ny) <$> seq start rows.

(** A worker holds a block of [Ny] columns with at least one row, and a
    generator with draws in [[0, 1)]. *)
Definition worker_ok (Ny : nat) (w : list (list Z) * rng) : Prop :=
  has_cols Ny w.1 ∧ w.1 ≠ [] ∧ rng_ok w.2.

(** The flag at the integer position [(x, y)] of a mask, [false] outside
    the mask. *)
Definition flag_at (g : list (list bool)) (x y : Z) : bool :=
  if decide (0 ≤ x ∧ 0 ≤ y)
  then default false (cell g (Z.to_nat x) (Z.to_nat y))
  else false.

(** By how much [mask[dst] |= g[src]] shifts [g] along one axis, for the
    pairs of slices that select regions of equal length. *)
Definition slice_shift (dst src : slice) : option Z :=
  match dst, src with
  | SlAll, SlAll => Some 0
  | SlToLast, SlFrom1 => Some 1
  | SlFrom1, SlToLast => Some (-1)
  | _, _ => None
  end.

(** [a] has [Nx] rows of [Ny] elements. *)
Definition shape_is {A} (Nx Ny : nat) (a : list (list A)) : Prop :=
  length a = Nx ∧ Forall (λ r, length r = Ny) a.

(** The ghost-row reference, when present, names an array of [Ny]
    elements of the store. *)
Definition ghost_ref_ok (h : gmap nat ndarray) (Ny : nat) (ghost : option nat)
    : Prop :=
  ∀ l, ghost = Some l → ∃ a, h !! l = Some a ∧ length (elements a) = Ny.

(** The row behind a ghost-row reference. *)
Definition ghost_val (h : gmap nat ndarray) (ghost : option nat)
    : option (list Z) :=
  l ← ghost; elements <$> h !! l.

(** The number of draws the loop body of [update_block] consumes at cell
    [(i, j)]: none for a burning cell and for a tree next to a burning
    cell, one otherwise. *)
Definition draws_at (padded : list (list Z)) (Ny : nat) (i j : nat) : nat :=
  let s := at2 padded (Z.of_nat i + 1) (Z.of_nat j) in
  if s =? BURN then 0%nat
  else if s =? TREE then (if moore_burning padded Ny i j then 0%nat else 1%nat)
  else 1%nat.

(** The draws consumed by the first [j] cells of row [i]. *)
Definition draws_in_row (padded : list (list Z)) (Ny : nat) (i j : nat) : nat :=
  sum_list (draws_at padded Ny i <$> seq 0 j).

(** The draws consumed by the cells that precede [(i, j)] in row-major
    order. *)
Definition draws_before (padded : list (list Z)) (Ny : nat) (i j : nat) : nat :=
  (sum_list ((λ i', draws_in_row padded Ny i' Ny) <$> seq 0 i)
   + draws_in_row padded Ny i j)%nat.

(** No cell of [a] holds [BURN]. *)
Definition no_fire (a : list (list Z)) : Prop :=
  Forall (Forall (λ c, c ≠ BURN)) a.

(** The block and generator [w'] of a worker after some steps, against
    those it had before: same number of rows, [Ny] columns, same stream of
    draws. *)
Definition same_shape (Ny : nat) (w w' : list (list Z) * rng) : Prop :=
  length w'.1 = length w.1 ∧ has_cols Ny w'.1 ∧ stream w'.2 = stream w.2.

(** ** Concrete inputs *)

(** A generator whose every draw is one half. *)
Definition half_rng : rng := Rng (λ _, (1 # 2)%Q) 0%nat.


(** The 4x4 forest of the spec's scenario: all trees, cell (1,2) burning. *)
Definition forest4 : list (list Z) :=
  [[1;1;1;1]; [1;1;2;1]; [1;1;1;1]; [1;1;1;1]].

(** A store with a 2x4 block at reference 0 and a ghost row at reference 1. *)
Definition store2x4 : gmap nat ndarray :=
  <[0%nat := Arr2 4 [[1;1;1;1]; [1;1;2;1]]]> (<[1%nat := Arr1 [1;2;1;1]]> ∅).

(** The same forest split between two workers, rows 0-1 and rows 2-3. *)
Definition workers4 : list (list (list Z) * rng) :=
  [([[1;1;1;1]; [1;1;2;1]], half_rng); ([[1;1;1;1]; [1;1;1;1]], half_rng)].

(** Six bytes arriving in three segments. *)
Definition segments3 : list (list Z) := [[1; 2]; [3]; [4; 5; 6]].

(** * Properties

    ** Cells of an array *)

Lemma at2_cell a (i j : nat) :
  at2 a (Z.of_nat i) (Z.of_nat j) = default EMPTY (cell a i j).
Proof. unfold at2, cell. by rewrite !Nat2Z.id. Qed.

Lemma cell_is_Some {A} (a : list (list A)) Ny i j :
  Forall (λ r, length r = Ny) a → (i < length a)%nat → (j < Ny)%nat →
  is_Some (cell a i j).
Proof.
  intros Hc Hi Hj. unfold cell.
  destruct (lookup_lt_is_Some_2 a i Hi) as [r Hr]. rewrite Hr. simpl.
  apply lookup_lt_is_Some_2.
  rewrite Forall_lookup in Hc. by rewrite (Hc _ _ Hr).
Qed.

Lemma cell_Some_lt {A} (a : list (list A)) Ny i j v :
  Forall (λ r, length r = Ny) a → cell a i j = Some v →
  (i < length a)%nat ∧ (j < Ny)%nat.
Proof.
  intros Hc. unfold cell. destruct (a !! i) as [r|] eqn:Hr; [|done]. simpl.
  intros Hj. split; [by eapply lookup_lt_Some|].
  rewrite Forall_lookup in Hc. rewrite <- (Hc _ _ Hr). by eapply lookup_lt_Some.
Qed.

Lemma grid_ext {A} (a b : list (list A)) Ny :
  Forall (λ r, length r = Ny) a → Forall (λ r, length r = Ny) b →
  length a = length b →
  (∀ i j, (i < length a)%nat → (j < Ny)%nat → cell a i j = cell b i j) →
  a = b.
Proof.
  intros Ha Hb Hl H. apply list_eq. intros i.
  destruct (decide (i < length a)%nat) as [Hi|Hi].
  - destruct (lookup_lt_is_Some_2 a i Hi) as [ra Hra].
    destruct (lookup_lt_is_Some_2 b i ltac:(lia)) as [rb Hrb].
    rewrite Hra, Hrb. f_equal.
    rewrite Forall_lookup in Ha, Hb.
    pose proof (Ha _ _ Hra) as Hla. pose proof (Hb _ _ Hrb) as Hlb.
    apply list_eq. intros j.
    destruct (decide (j < Ny)%nat) as [Hj|Hj].
    + specialize (H i j Hi Hj). unfold cell in H. by rewrite Hra, Hrb in H.
    + rewrite !lookup_ge_None_2; [done| lia | lia].
  - rewrite !lookup_ge_None_2; [done| lia | lia].
Qed.

Lemma set2_length a i j v : length (set2 a i j v) = length a.
Proof. apply length_alter. Qed.

Lemma set2_has_cols Ny a i j v : has_cols Ny a → has_cols Ny (set2 a i j v).
Proof.
  unfold has_cols, set2. rewrite !Forall_lookup. intros H k r.
  destruct (decide (i = k)) as [->|Hne].
  - rewrite list_lookup_alter_eq. destruct (a !! k) as [r0|] eqn:Hr0; [|done].
    intros [= <-]. rewrite length_insert. eauto.
  - rewrite list_lookup_alter_ne by done. eauto.
Qed.

Lemma cell_set2_eq a i j v :
  is_Some (cell a i j) → cell (set2 a i j v) i j = Some v.
Proof.
  unfold cell, set2. rewrite list_lookup_alter_eq.
  destruct (a !! i) as [r|]; simpl; [|by intros [? ?]].
  intros Hj. apply list_lookup_insert_eq. by apply lookup_lt_is_Some.
Qed.

Lemma cell_set2_ne a i j v i' j' :
  (i, j) ≠ (i', j') → cell (set2 a i j v) i' j' = cell a i' j'.
Proof.
  intros Hne. unfold cell, set2.
  destruct (decide (i = i')) as [->|Hi].
  - rewrite list_lookup_alter_eq. destruct (a !! i'); [simpl|done].
    apply list_lookup_insert_ne. congruence.
  - by rewrite list_lookup_alter_ne.
Qed.

Lemma Qltb_zero r : (0 <= r)%Q → Qltb r 0 = false.
Proof.
  unfold Qltb, Qle. simpl. intros H. apply Z.ltb_ge. lia.
Qed.

(** ** The loops of update_block *)

#[local] Arguments update_cell : simpl never.
#[local] Arguments update_row : simpl never.
#[local] Arguments update_rows : simpl never.
#[local] Arguments next_state : simpl never.

Section update_loops.
Context (padded : list (list Z)) (Ny : nat) (p f : Q).

(** Each branch of the loop body writes the one cell [(i, j)], with a
    value that depends on [padded] and on the draw under the cursor. *)
Lemma update_cell_write i j new g :
  ∃ g', update_cell padded Ny p f i j (new, g)
        = (set2 new i j (next_state padded Ny p f i j (stream g (pos g))), g')
        ∧ stream g' = stream g.
Proof.
  unfold update_cell, next_state, random.
  repeat match goal with
         | |- context [if ?b then _ else _] => destruct b
         end; eauto.
Qed.

Lemma update_row_inv i new g m :
  has_cols Ny new → (i < length new)%nat → (m ≤ Ny)%nat →
  let st := foldl (λ st j, update_cell padded Ny p f i j st) (new, g) (seq 0 m) in
  length st.1 = length new ∧ has_cols Ny st.1 ∧ stream st.2 = stream g ∧
  (∀ j, (j < m)%nat →
     ∃ n, cell st.1 i j = Some (next_state padded Ny p f i j (stream g n))) ∧
  (∀ i' j', i' ≠ i ∨ (m ≤ j')%nat → cell st.1 i' j' = cell new i' j').
Proof.
  intros Hc Hi. cbv zeta. induction m as [|m IH]; intros Hm.
  { simpl. repeat split; try done. intros j Hj. lia. }
  rewrite seq_S, foldl_app. simpl.
  destruct IH as (Hlen & Hcols & Hs & Hdone & Hrest); [lia|].
  destruct (foldl _ (new, g) (seq 0 m)) as [new1 g1]. simpl in *.
  destruct (update_cell_write i m new1 g1) as (g2 & -> & Hs2). simpl.
  split; [by rewrite set2_length|].
  split; [by apply set2_has_cols|].
  split; [congruence|]. split.
  - intros j Hj. destruct (decide (j = m)) as [->|Hne].
    + exists (pos g1). rewrite cell_set2_eq, Hs; [done|].
      eapply cell_is_Some; [done|lia|lia].
    + rewrite cell_set2_ne by congruence. apply Hdone. lia.
  - intros i' j' Hij. rewrite cell_set2_ne.
    + apply Hrest. lia.
    + intros [= -> ->]. lia.
Qed.

Lemma update_row_spec i new g :
  has_cols Ny new → (i < length new)%nat →
  let st := update_row padded Ny p f i (new, g) in
  length st.1 = length new ∧ has_cols Ny st.1 ∧ stream st.2 = stream g ∧
  (∀ j, (j < Ny)%nat →
     ∃ n, cell st.1 i j = Some (next_state padded Ny p f i j (stream g n))) ∧
  (∀ i' j', i' ≠ i → cell st.1 i' j' = cell new i' j').
Proof.
  intros Hc Hi.
  destruct (update_row_inv i new g Ny Hc Hi ltac:(lia)) as (?&?&?&?&Hrest).
  repeat split; try done. intros i' j' Hne. apply Hrest. by left.
Qed.

Lemma update_rows_inv new g rows :
  has_cols Ny new → (rows ≤ length new)%nat →
  let st := update_rows padded Ny p f rows (new, g) in
  length st.1 = length new ∧ has_cols Ny st.1 ∧ stream st.2 = stream g ∧
  (∀ i j, (i < rows)%nat → (j < Ny)%nat →
     ∃ n, cell st.1 i j = Some (next_state padded Ny p f i j (stream g n))) ∧
  (∀ i j, (rows ≤ i)%nat → cell st.1 i j = cell new i j).
Proof.
  intros Hc. unfold update_rows. cbv zeta.
  induction rows as [|rows IH]; intros Hr.
  { simpl. repeat split; try done. intros i j Hi. lia. }
  rewrite seq_S, foldl_app. simpl.
  destruct IH as (Hlen & Hcols & Hs & Hdone & Hrest); [lia|].
  destruct (foldl _ (new, g) (seq 0 rows)) as [new1 g1]. simpl in *.
  destruct (update_row_spec rows new1 g1 Hcols ltac:(lia))
    as (Hlen2 & Hcols2 & Hs2 & Hrow & Hother).
  destruct (update_row _ _ _ _ rows (new1, g1)) as [new2 g2]. simpl in *.
  split; [congruence|]. split; [done|]. split; [congruence|]. split.
  - intros i j Hi Hj. destruct (decide (i = rows)) as [->|Hne].
    + destruct (Hrow j Hj) as [n Hn]. exists n. by rewrite Hn, Hs.
    + rewrite Hother by done. apply Hdone; lia.
  - intros i j Hi. rewrite Hother by lia. apply Hrest. lia.
Qed.
End update_loops.

(** The array [update_block] builds with [np.vstack] is the padded block. *)
Lemma update_block_unfold Ny block top bot p f g :
  ghost_ok Ny top → ghost_ok Ny bot →
  update_block Ny block top bot p f g
  = Some (update_rows (padded_block Ny block top bot) Ny p f (length block)
            (block, g)).
Proof.
  intros Ht Hb. unfold update_block, padded_block, vstack3, full_row, reshape_row.
  destruct top as [t|], bot as [b|]; simpl;
    rewrite ?(decide_True (P := length t = Ny)) by (by apply Ht);
    rewrite ?(decide_True (P := length b = Ny)) by (by apply Hb); done.
Qed.

(** What [update_block] returns: a block of the shape of its input whose
    every cell is the [next_state] of that cell for some draw of the
    generator. *)
Lemma update_block_cells Ny block top bot p f g :
  has_cols Ny block → ghost_ok Ny top → ghost_ok Ny bot →
  ∃ new g',
    update_block Ny block top bot p f g = Some (new, g') ∧
    length new = length block ∧ has_cols Ny new ∧ stream g' = stream g ∧
    ∀ i j, (i < length block)%nat → (j < Ny)%nat →
      ∃ n, cell new i j
           = Some (next_state (padded_block Ny block top bot) Ny p f i j
                     (stream g n)).
Proof.
  intros Hc Ht Hb. rewrite update_block_unfold by done.
  destruct (update_rows_inv (padded_block Ny block top bot) Ny p f block g
              (length block) Hc ltac:(lia)) as (Hl & Hcols & Hs & Hcells & _).
  destruct (update_rows _ _ _ _ _ _) as [new g']. simpl in *. eauto 10.
Qed.

(** ** The update rule, cell by cell *)

Lemma cell_padded_block Ny block top bot i j :
  (i < length block)%nat →
  cell (padded_block Ny block top bot) (S i) j = cell block i j.
Proof.
  intros Hi. unfold cell, padded_block. simpl. by rewrite lookup_app_l.
Qed.

Lemma at2_padded_block Ny block top bot i j :
  (i < length block)%nat →
  at2 (padded_block Ny block top bot) (Z.of_nat i + 1) (Z.of_nat j)
  = default EMPTY (cell block i j).
Proof.
  intros Hi. replace (Z.of_nat i + 1) with (Z.of_nat (S i)) by lia.
  by rewrite at2_cell, cell_padded_block.
Qed.

Lemma next_state_valid padded Ny p f i j r :
  valid_cell (next_state padded Ny p f i j r).
Proof.
  unfold next_state, valid_cell.
  repeat match goal with
         | |- context [if ?b then _ else _] => destruct b
         end; auto.
Qed.

Lemma next_state_burn padded Ny p f i j r :
  at2 padded (Z.of_nat i + 1) (Z.of_nat j) = BURN →
  next_state padded Ny p f i j r = EMPTY.
Proof. unfold next_state. by intros ->. Qed.

Lemma next_state_tree padded Ny p i j r :
  at2 padded (Z.of_nat i + 1) (Z.of_nat j) = TREE → (0 <= r)%Q →
  next_state padded Ny p 0 i j r
  = if moore_burning padded Ny i j then BURN else TREE.
Proof.
  unfold next_state. intros -> Hr. simpl. by rewrite Qltb_zero.
Qed.

(** Without growth and lightning the next state does not depend on the
    draw. *)
Lemma next_state_no_draw padded Ny i j r :
  (0 <= r)%Q →
  next_state padded Ny 0 0 i j r = next_state padded Ny 0 0 i j 0.
Proof.
  unfold next_state. intros Hr. by rewrite (Qltb_zero r).
Qed.

Lemma Forall_cells {A} (P : A → Prop) Ny (a : list (list A)) :
  Forall (λ r, length r = Ny) a →
  (∀ i j, (i < length a)%nat → (j < Ny)%nat →
     ∃ v, cell a i j = Some v ∧ P v) →
  Forall (Forall P) a.
Proof.
  intros Hc H. apply Forall_lookup. intros i r Hr.
  apply Forall_lookup. intros j v Hv.
  rewrite Forall_lookup in Hc.
  destruct (H i j) as (v' & Hv' & HP).
  - by eapply lookup_lt_Some.
  - rewrite <- (Hc _ _ Hr). by eapply lookup_lt_Some.
  - unfold cell in Hv'. rewrite Hr in Hv'. simpl in Hv'. congruence.
Qed.

(** *** The neighbour scan finds exactly the burning Moore neighbours *)

Lemma at2_burn padded ni nj :
  at2 padded ni nj = BURN ↔ cell padded (Z.to_nat ni) (Z.to_nat nj) = Some BURN.
Proof.
  unfold at2, cell. destruct (_ ≫= _) as [v|]; simpl.
  - split; congruence.
  - split; [discriminate | discriminate].
Qed.

Lemma scan_dj_true padded Ny i j di djs :
  scan_dj padded Ny i j di djs = true ↔
  ∃ dj, dj ∈ djs ∧ (di, dj) ≠ (0, 0) ∧
        0 ≤ Z.of_nat j + dj < Z.of_nat Ny ∧
        at2 padded (Z.of_nat i + 1 + di) (Z.of_nat j + dj) = BURN.
Proof.
  induction djs as [|dj djs IH]; simpl.
  { split; [discriminate|]. intros (dj & Hin & _). by apply elem_of_nil in Hin. }
  destruct ((di =? 0) && (dj =? 0)) eqn:Hself.
  { rewrite IH. apply andb_true_iff in Hself as [?%Z.eqb_eq ?%Z.eqb_eq]. subst.
    split; intros (dj' & Hin & Hne & Hrest); exists dj'.
    - split; [by right | done].
    - apply elem_of_cons in Hin as [->|Hin]; [done | done]. }
  assert ((di, dj) ≠ (0, 0)) as Hne.
  { intros [= -> ->]. done. }
  rewrite Z.geb_leb.
  destruct ((Z.of_nat j + dj <? 0) || (Z.of_nat Ny <=? Z.of_nat j + dj)) eqn:Hout.
  { rewrite IH. apply orb_true_iff in Hout.
    split; intros (dj' & Hin & Hne' & Hrange & Hb); exists dj'.
    - split; [by right | done].
    - apply elem_of_cons in Hin as [->|Hin]; [|done]. exfalso.
      destruct Hout as [?%Z.ltb_lt | ?%Z.leb_le]; lia. }
  apply orb_false_iff in Hout as [?%Z.ltb_ge ?%Z.leb_gt].
  destruct (at2 padded _ _ =? BURN) eqn:Hb.
  { apply Z.eqb_eq in Hb. split; [|done]. intros _. exists dj.
    split; [by left|]. repeat split; try done; lia. }
  apply Z.eqb_neq in Hb. rewrite IH.
  split; intros (dj' & Hin & Hne' & Hrange & Hb'); exists dj'.
  - split; [by right | done].
  - apply elem_of_cons in Hin as [->|Hin]; [done | done].
Qed.

Lemma scan_di_true padded Ny i j dis :
  scan_di padded Ny i j dis = true ↔
  ∃ di, di ∈ dis ∧ scan_dj padded Ny i j di [-1; 0; 1] = true.
Proof.
  induction dis as [|di dis IH]; cbn [scan_di].
  { split; [discriminate|]. intros (di & Hin & _). by apply elem_of_nil in Hin. }
  destruct (scan_dj padded Ny i j di [-1; 0; 1]) eqn:Hdj.
  - split; [|done]. intros _. exists di. split; [by left | done].
  - rewrite IH. split; intros (di' & Hin & Hs); exists di'.
    + split; [by right | done].
    + apply elem_of_cons in Hin as [->|Hin]; [congruence | done].
Qed.

Lemma offset_elem (d : Z) : d ∈ [-1; 0; 1] ↔ -1 ≤ d ≤ 1.
Proof.
  rewrite !elem_of_cons, elem_of_nil. lia.
Qed.

Lemma moore_burning_true padded Ny i j :
  moore_burning padded Ny i j = true ↔ burning_neighbour padded Ny i j.
Proof.
  unfold moore_burning, burning_neighbour. rewrite scan_di_true. split.
  - intros (di & Hdi & Hs). apply scan_dj_true in Hs as (dj & Hdj & Hne & Hr & Hb).
    exists di, dj. rewrite offset_elem in Hdi, Hdj. by rewrite <- at2_burn.
  - intros (di & dj & Hdi & Hdj & Hne & Hr & Hb). exists di.
    split; [by apply offset_elem|]. apply scan_dj_true. exists dj.
    split; [by apply offset_elem|]. by rewrite at2_burn.
Qed.

Lemma rng_ok_half : rng_ok half_rng.
Proof. intros n. split; [discriminate | reflexivity]. Qed.

(** ** Properties of update_block *)

Lemma has_cols_forest4 : has_cols 4 forest4.
Proof. repeat constructor. Qed.

Lemma ghost_ok_None Ny : ghost_ok Ny None.
Proof. intros r. discriminate. Qed.

Lemma ghost_ok_Some Ny r : length r = Ny → ghost_ok Ny (Some r).
Proof. intros H r' [= <-]. done. Qed.

(** C4. Every cell of the block returned by [update_block] holds one of the
    codes [EMPTY], [TREE], [BURN], whatever integers the input block and
    the ghost rows hold and whatever [p] and [f] are. *)
Theorem update_block_codomain Ny block top bot p f g :
  has_cols Ny block → ghost_ok Ny top → ghost_ok Ny bot →
  ∃ new g', update_block Ny block top bot p f g = Some (new, g') ∧
            valid_grid new.
Proof.
  intros Hc Ht Hb.
  destruct (update_block_cells Ny block top bot p f g Hc Ht Hb)
    as (new & g' & Hrun & Hlen & Hcols & _ & Hcells).
  exists new, g'. split; [done|].
  apply (Forall_cells valid_cell Ny); [done|].
  intros i j Hi Hj. destruct (Hcells i j) as [n Hn]; [lia | done |].
  eexists. split; [done|]. apply next_state_valid.
Qed.

Lemma update_block_codomain_witness :
  ∃ new g', update_block 3 [[7; -3; 2]; [1; 100; 0]] (Some [2; 9; 1]) None
              (1 # 3) (3 # 4) half_rng = Some (new, g') ∧
            valid_grid new.
Proof.
  apply update_block_codomain.
  - repeat constructor.
  - by apply ghost_ok_Some.
  - apply ghost_ok_None.
Defined.

(** C6. A [BURN] cell is [EMPTY] in the block returned by [update_block],
    whatever its neighbours, [p] and [f]. *)
Theorem burning_extinguishes Ny block top bot p f g i j :
  has_cols Ny block → ghost_ok Ny top → ghost_ok Ny bot →
  cell block i j = Some BURN →
  ∃ new g', update_block Ny block top bot p f g = Some (new, g') ∧
            cell new i j = Some EMPTY.
Proof.
  intros Hc Ht Hb Hcell.
  destruct (cell_Some_lt block Ny i j BURN Hc Hcell) as [Hi Hj].
  destruct (update_block_cells Ny block top bot p f g Hc Ht Hb)
    as (new & g' & Hrun & _ & _ & _ & Hcells).
  exists new, g'. split; [done|].
  destruct (Hcells i j Hi Hj) as [n ->]. f_equal.
  apply next_state_burn. by rewrite at2_padded_block, Hcell.
Qed.

Lemma burning_extinguishes_witness :
  ∃ new g', update_block 4 forest4 None (Some [2; 2; 2; 2]) 1 1 half_rng
            = Some (new, g') ∧
            cell new 1 2 = Some EMPTY.
Proof.
  apply burning_extinguishes.
  - apply has_cols_forest4.
  - apply ghost_ok_None.
  - by apply ghost_ok_Some.
  - reflexivity.
Defined.

(** C5. An absent ghost row and a ghost row of [Ny] [EMPTY] cells give the
    same result, on either side and on both, for the same block, [p], [f]
    and generator. *)
Theorem absent_ghost_is_empty_row Ny block ghost p f g :
  update_block Ny block None ghost p f g
  = update_block Ny block (Some (replicate Ny EMPTY)) ghost p f g
  ∧ update_block Ny block ghost None p f g
    = update_block Ny block ghost (Some (replicate Ny EMPTY)) p f g
  ∧ update_block Ny block None None p f g
    = update_block Ny block (Some (replicate Ny EMPTY))
        (Some (replicate Ny EMPTY)) p f g.
Proof.
  unfold update_block, reshape_row, full_row.
  rewrite !decide_True by apply length_replicate. done.
Qed.

(** A worker at the top of the chain passes no top ghost row, one at the
    bottom no bottom ghost row: their edge cells see an [EMPTY] boundary. *)
Lemma worker_step_outer_ranks Ny p f ws w out :
  (worker_step Ny p f ws 0 w = Some out →
   ∃ bottomGhost,
     update_block Ny w.1 (Some (replicate Ny EMPTY)) bottomGhost p f w.2
     = Some out) ∧
  (worker_step Ny p f ws (length ws - 1) w = Some out →
   ∃ topGhost,
     update_block Ny w.1 topGhost (Some (replicate Ny EMPTY)) p f w.2
     = Some out).
Proof.
  destruct w as [grid g]. unfold worker_step. simpl. split.
  - destruct (top_row grid); [simpl|done]. destruct (bottom_row grid); [simpl|done].
    destruct (if decide _ then _ else _) as [bg|]; [simpl|done].
    intros H. exists bg.
    by destruct (absent_ghost_is_empty_row Ny grid bg p f g) as [<- _].
  - destruct (top_row grid); [simpl|done]. destruct (bottom_row grid); [simpl|done].
    rewrite (decide_False (P := (length ws - 1 < length ws - 1)%nat)) by lia.
    destruct (if decide _ then _ else _) as [tg|]; [simpl|done].
    intros H. exists tg.
    by destruct (absent_ghost_is_empty_row Ny grid tg p f g) as (_ & <- & _).
Qed.

(** C3. With [f = 0], a [TREE] cell at local position [(i, j)] is [BURN] in
    the block returned by [update_block] exactly when one of its eight
    Moore neighbours in the padded block holds [BURN], and is [TREE]
    otherwise. *)
Theorem tree_ignition Ny block top bot p g i j :
  has_cols Ny block → ghost_ok Ny top → ghost_ok Ny bot → rng_ok g →
  cell block i j = Some TREE →
  ∃ new g', update_block Ny block top bot p 0 g = Some (new, g') ∧
    (cell new i j = Some BURN
     ↔ burning_neighbour (padded_block Ny block top bot) Ny i j) ∧
    (¬ burning_neighbour (padded_block Ny block top bot) Ny i j →
     cell new i j = Some TREE).
Proof.
  intros Hc Ht Hb Hg Hcell.
  destruct (cell_Some_lt block Ny i j TREE Hc Hcell) as [Hi Hj].
  destruct (update_block_cells Ny block top bot p 0 g Hc Ht Hb)
    as (new & g' & Hrun & _ & _ & _ & Hcells).
  exists new, g'. split; [done|].
  destruct (Hcells i j Hi Hj) as [n ->].
  rewrite next_state_tree;
    [| by rewrite at2_padded_block, Hcell | apply Hg].
  rewrite <- moore_burning_true.
  destruct (moore_burning _ Ny i j).
  - split; [done|]. intros H. by destruct H.
  - split; [|done]. split; discriminate.
Qed.

Lemma tree_ignition_witness :
  ∃ new g', update_block 4 [[1;1;1;1]; [1;1;1;1]] (Some [1;1;2;1]) None
              (1 # 2) 0 half_rng = Some (new, g') ∧
    (cell new 0 1 = Some BURN
     ↔ burning_neighbour
         (padded_block 4 [[1;1;1;1]; [1;1;1;1]] (Some [1;1;2;1]) None) 4 0 1) ∧
    (¬ burning_neighbour
         (padded_block 4 [[1;1;1;1]; [1;1;1;1]] (Some [1;1;2;1]) None) 4 0 1 →
     cell new 0 1 = Some TREE).
Proof.
  apply tree_ignition.
  - repeat constructor.
  - by apply ghost_ok_Some.
  - apply ghost_ok_None.
  - apply rng_ok_half.
  - reflexivity.
Defined.

(** ** The row ranges of the workers *)

Lemma rows_per_bounds (Nx n : Z) :
  0 < n ≤ Nx → 1 ≤ Nx / n ∧ n * (Nx / n) ≤ Nx ∧ Nx = n * (Nx / n) + Nx mod n
             ∧ 0 ≤ Nx mod n < n.
Proof.
  intros H. split; [|split; [|split]].
  - apply Z.div_le_lower_bound; lia.
  - apply Z.mul_div_le. lia.
  - apply Z.div_mod. lia.
  - apply Z.mod_pos_bound. lia.
Qed.

(** C2. For [Nx >= num_workers > 0] the ranges [[i0, i1)] that
    [worker_main] computes for the ranks [0 .. num_workers-1] are non-empty,
    ordered by rank, contiguous, pairwise disjoint, and cover [[0, Nx)]
    exactly; every rank but the highest gets [Nx / num_workers] rows and the
    highest also gets the remainder. *)
Theorem worker_rows_partition (Nx n : Z) :
  0 < n ≤ Nx →
  let i0 := λ r, r * (Nx / n) in
  let i1 := λ r, if r =? n - 1 then Nx else (r + 1) * (Nx / n) in
  (∀ r, 0 ≤ r < n → worker_rows r n Nx = inr (i0 r, i1 r)) ∧
  i0 0 = 0 ∧ i1 (n - 1) = Nx ∧
  (∀ r, 0 ≤ r < n → i0 r < i1 r) ∧
  (∀ r, 0 ≤ r < n - 1 → i1 r = i0 (r + 1)) ∧
  (∀ r r', 0 ≤ r < r' → r' < n → i1 r ≤ i0 r') ∧
  (∀ x, 0 ≤ x < Nx ↔ ∃ r, 0 ≤ r < n ∧ i0 r ≤ x < i1 r) ∧
  (∀ r, 0 ≤ r < n - 1 → i1 r - i0 r = Nx / n) ∧
  i1 (n - 1) - i0 (n - 1) = Nx / n + Nx mod n.
Proof.
  intros Hn i0 i1. subst i0 i1. cbv beta.
  destruct (rows_per_bounds Nx n Hn) as (Hq & Hle & Hdm & Hmod).
  set (q := Nx / n) in *.
  split; [|split; [|split; [|split; [|split; [|split; [|split; [|split]]]]]]].
  - intros r Hr. unfold worker_rows.
    destruct (Z.eqb_spec n 0); [lia | done].
  - lia.
  - by rewrite Z.eqb_refl.
  - intros r Hr. destruct (Z.eqb_spec r (n - 1)); nia.
  - intros r Hr. destruct (Z.eqb_spec r (n - 1)); lia.
  - intros r r' Hr Hr'. destruct (Z.eqb_spec r (n - 1)); nia.
  - intros x. split.
    + intros Hx. destruct (Z_lt_le_dec (x / q) (n - 1)) as [Hlt|Hge].
      * exists (x / q).
        assert (0 ≤ x / q) by (apply Z.div_pos; lia).
        pose proof (Z.div_mod x q ltac:(lia)) as Hdx.
        pose proof (Z.mod_pos_bound x q ltac:(lia)) as Hmx.
        destruct (Z.eqb_spec (x / q) (n - 1)); [lia|]. nia.
      * exists (n - 1). rewrite Z.eqb_refl.
        pose proof (Z.div_mod x q ltac:(lia)) as Hdx.
        pose proof (Z.mod_pos_bound x q ltac:(lia)) as Hmx.
        split; [lia|]. split; [nia | lia].
    + intros (r & Hr & Hx). destruct (Z.eqb_spec r (n - 1)); nia.
  - intros r Hr. destruct (Z.eqb_spec r (n - 1)); lia.
  - rewrite Z.eqb_refl. lia.
Qed.

Lemma worker_rows_partition_witness :
  let i0 := λ r, r * (10 / 4) in
  let i1 := λ r, if r =? 4 - 1 then 10 else (r + 1) * (10 / 4) in
  (∀ r, 0 ≤ r < 4 → worker_rows r 4 10 = inr (i0 r, i1 r)) ∧
  i0 0 = 0 ∧ i1 (4 - 1) = 10 ∧
  (∀ r, 0 ≤ r < 4 → i0 r < i1 r) ∧
  (∀ r, 0 ≤ r < 4 - 1 → i1 r = i0 (r + 1)) ∧
  (∀ r r', 0 ≤ r < r' → r' < 4 → i1 r ≤ i0 r') ∧
  (∀ x, 0 ≤ x < 10 ↔ ∃ r, 0 ≤ r < 4 ∧ i0 r ≤ x < i1 r) ∧
  (∀ r, 0 ≤ r < 4 - 1 → i1 r - i0 r = 10 / 4) ∧
  i1 (4 - 1) - i0 (4 - 1) = 10 / 4 + 10 mod 4.
Proof. apply (worker_rows_partition 10 4). lia. Defined.

(** The ranges of 4 workers on 10 rows. *)
Example worker_rows_10_4 :
  (λ r, worker_rows r 4 10) <$> [0; 1; 2; 3]
  = [inr (0, 2); inr (2, 4); inr (4, 6); inr (6, 10)].
Proof. reflexivity. Qed.

(** C9, as stated, fails: with more workers than rows, rank 0 is given an
    (empty) row range and no error is raised. *)
Lemma worker_rows_not_validated : 2 < 4 ∧ worker_rows 0 4 2 = inr (0, 0).
Proof. split; [lia | reflexivity]. Qed.

(** C9, amended. [worker_main] does not validate [(Nx, num_procs)].  With
    [num_procs = 0] the division raises [ZeroDivisionError]; with any other
    [num_procs], also a negative one or one above [Nx], the rank gets the
    range of the formula; for [0 <= Nx < num_procs] that is the empty range
    [[0, 0)] for every rank but the highest and [[0, Nx)] for the highest. *)
Theorem worker_rows_unvalidated (rank n Nx : Z) :
  n ≤ 0 ∨ Nx < n →
  (n = 0 → worker_rows rank n Nx = inl ZeroDivisionError) ∧
  (n ≠ 0 →
   worker_rows rank n Nx
   = inr (rank * (Nx / n),
          if rank =? n - 1 then Nx else (rank + 1) * (Nx / n))) ∧
  (0 < n → 0 ≤ Nx →
   worker_rows rank n Nx = inr (if rank =? n - 1 then (0, Nx) else (0, 0))).
Proof.
  intros Hbad. unfold worker_rows. split; [|split].
  - intros ->. done.
  - intros Hn. destruct (Z.eqb_spec n 0); [done | done].
  - intros Hn HNx. destruct (Z.eqb_spec n 0); [lia|].
    rewrite (Z.div_small Nx n) by lia.
    destruct (rank =? n - 1); f_equal; f_equal; lia.
Qed.

Lemma worker_rows_unvalidated_witness :
  (4 = 0 → worker_rows 3 4 2 = inl ZeroDivisionError) ∧
  (4 ≠ 0 →
   worker_rows 3 4 2
   = inr (3 * (2 / 4), if 3 =? 4 - 1 then 2 else (3 + 1) * (2 / 4))) ∧
  (0 < 4 → 0 ≤ 2 → worker_rows 3 4 2 = inr (if 3 =? 4 - 1 then (0, 2) else (0, 0))).
Proof. apply (worker_rows_unvalidated 3 4 2). right. lia. Defined.

(** ** Connecting to the upper neighbour *)

Lemma connect_loop_fails fails rest sleeps :
  Forall (λ a, a ≠ Accepted) fails →
  connect_loop (fails ++ rest) sleeps = connect_loop rest (length fails + sleeps).
Proof.
  intros H. revert sleeps. induction H as [|a fails Ha _ IH]; intros sleeps.
  - done.
  - destruct a as [|e]; [done|]. simpl. rewrite IH. f_equal. lia.
Qed.

Lemma connect_loop_never_aborts outcomes sleeps e :
  connect_loop outcomes sleeps ≠ Aborted e.
Proof.
  revert sleeps. induction outcomes as [|[|e'] outcomes IH]; intros sleeps; simpl;
    [discriminate | discriminate | apply IH].
Qed.

(** C10, as stated, fails: an attempt that raises an error other than
    connection-refused (here errno 113, no route to host) is followed by a
    sleep and a second attempt, which connects; the claimed policy would
    have aborted. *)
Lemma connect_retries_unreachable :
  OSError 113 ≠ ConnectionRefusedError ∧
  connect_up 1 [Raises (OSError 113); Accepted] = Some (UpConnected 1) ∧
  connect_loop_claimed [Raises (OSError 113); Accepted] 0 = Aborted (OSError 113).
Proof. split; [discriminate | split; reflexivity]. Qed.

(** C10, amended. A worker of rank above 0 retries after every failed
    attempt to reach its upper neighbour, whatever the error, each time
    after one sleep of [retry_delay_ms]: it is connected at the first
    attempt that succeeds, is still trying while none has, and never
    aborts. *)
Theorem connect_retries_every_error (rank : Z) (fails rest : list attempt) :
  0 < rank → Forall (λ a, a ≠ Accepted) fails →
  connect_up rank (fails ++ Accepted :: rest) = Some (UpConnected (length fails)) ∧
  connect_up rank fails = Some (Trying (length fails)) ∧
  (∀ outcomes e, connect_up rank outcomes ≠ Some (Aborted e)).
Proof.
  intros Hrank Hfails. unfold connect_up.
  destruct (Z.ltb_spec 0 rank); [|lia].
  split; [|split].
  - rewrite connect_loop_fails by done. simpl. do 2 f_equal. lia.
  - rewrite <- (app_nil_r fails) at 1. rewrite connect_loop_fails by done.
    simpl. do 2 f_equal. lia.
  - intros outcomes e [= Hab]. by apply connect_loop_never_aborts in Hab.
Qed.

Lemma connect_retries_every_error_witness :
  connect_up 2 ([Raises ConnectionRefusedError; Raises (OSError 113)]
                  ++ Accepted :: [Raises (OSError 111)])
  = Some (UpConnected 2) ∧
  connect_up 2 [Raises ConnectionRefusedError; Raises (OSError 113)]
  = Some (Trying 2) ∧
  (∀ outcomes e, connect_up 2 outcomes ≠ Some (Aborted e)).
Proof.
  apply (connect_retries_every_error 2
           [Raises ConnectionRefusedError; Raises (OSError 113)]).
  - lia.
  - repeat constructor; discriminate.
Defined.

(** ** update_block on the store *)

Lemma load2_insert_eq (h : gmap nat ndarray) l n rows :
  load2 (<[l := Arr2 n rows]> h) l = rows.
Proof. unfold load2. by rewrite lookup_insert_eq. Qed.

Lemma load2_insert_ne (h : gmap nat ndarray) l l' a :
  l ≠ l' → load2 (<[l := a]> h) l' = load2 h l'.
Proof. intros Hne. unfold load2. by rewrite lookup_insert_ne. Qed.

Lemma store2_insert (h : gmap nat ndarray) l n rows i j v :
  store2 (<[l := Arr2 n rows]> h) l i j v = <[l := Arr2 n (set2 rows i j v)]> h.
Proof. unfold store2. by rewrite alter_insert_eq. Qed.

Section heap_loops.
Context (hb : gmap nat ndarray) (padded new : nat) (Ny : nat) (p f : Q).
Context (n_padded : nat) (padded_rows : list (list Z)).
Hypothesis Hpadded : hb !! padded = Some (Arr2 n_padded padded_rows).
Hypothesis Hdistinct : new ≠ padded.

(** While the output array is the only one written, the loop body on the
    store does to it what [update_cell] does to its array argument, and
    reads the array [padded] as it was allocated. *)
Lemma update_cell_heap_sim i j rows g :
  update_cell_heap padded new Ny p f i j (<[new := Arr2 Ny rows]> hb, g)
  = let st := update_cell padded_rows Ny p f i j (rows, g) in
    (<[new := Arr2 Ny st.1]> hb, st.2).
Proof.
  unfold update_cell_heap, update_cell.
  rewrite load2_insert_ne by done.
  replace (load2 hb padded) with padded_rows by (unfold load2; by rewrite Hpadded).
  rewrite !store2_insert. unfold random.
  repeat match goal with
         | |- context [if ?b then _ else _] => destruct b
         end; done.
Qed.

Lemma update_cells_heap_sim i js rows g :
  foldl (λ st j, update_cell_heap padded new Ny p f i j st)
    (<[new := Arr2 Ny rows]> hb, g) js
  = let st := foldl (λ st j, update_cell padded_rows Ny p f i j st) (rows, g) js in
    (<[new := Arr2 Ny st.1]> hb, st.2).
Proof.
  revert rows g. induction js as [|j js IH]; intros rows g; [done|].
  cbn [foldl]. rewrite update_cell_heap_sim. cbv zeta.
  destruct (update_cell padded_rows Ny p f i j (rows, g)) as [rows1 g1].
  apply IH.
Qed.

Lemma update_rows_heap_sim rows_n rows g :
  update_rows_heap padded new Ny p f rows_n (<[new := Arr2 Ny rows]> hb, g)
  = let st := update_rows padded_rows Ny p f rows_n (rows, g) in
    (<[new := Arr2 Ny st.1]> hb, st.2).
Proof.
  unfold update_rows_heap, update_rows. generalize (seq 0 rows_n) as ks.
  intros ks. revert rows g. induction ks as [|i ks IH]; intros rows g; [done|].
  cbn [foldl]. unfold update_row_heap at 2. rewrite update_cells_heap_sim.
  cbv zeta. fold (update_row padded_rows Ny p f i (rows, g)).
  destruct (update_row padded_rows Ny p f i (rows, g)) as [rows1 g1].
  apply IH.
Qed.
End heap_loops.

Lemma alloc_fresh (h : gmap nat ndarray) a l h' :
  alloc h a = (l, h') → h !! l = None ∧ h' = <[l := a]> h.
Proof.
  unfold alloc. intros [= <- <-]. split; [|done].
  apply not_elem_of_dom, is_fresh.
Qed.

(** The padding step: the reference it yields names, in a store that
    extends the given one, an array that reads as the ghost row, or as a
    row of [EMPTY] cells. *)
Lemma pad_heap (h : gmap nat ndarray) Ny ghost :
  ghost_ref_ok h Ny ghost →
  ∃ l h1 a,
    match ghost with
    | None => Some (alloc h (Arr2 Ny (full_row Ny EMPTY)))
    | Some t => l ← reshape_view h Ny t; Some (l, h)
    end = Some (l, h1) ∧
    h1 !! l = Some a ∧
    elements a = default (replicate Ny EMPTY) (ghost_val h ghost) ∧
    (∀ l' a', h !! l' = Some a' → h1 !! l' = Some a') ∧
    (∀ l', h1 !! l' = None → h !! l' = None).
Proof.
  intros Hok. destruct ghost as [t|]; simpl.
  - destruct (Hok t eq_refl) as (a & Ha & Hlen).
    exists t, h, a. unfold reshape_view. rewrite Ha. simpl.
    rewrite decide_True by done. done.
  - destruct (alloc h _) as [l h1] eqn:Hal.
    apply alloc_fresh in Hal as [Hfresh ->]. eexists l, _, _.
    split; [done|]. split; [apply lookup_insert_eq|]. split; [|split].
    + simpl. by rewrite app_nil_r.
    + intros l' a Ha. rewrite lookup_insert_ne; [done | congruence].
    + intros l' Hl'. destruct (decide (l = l')) as [->|Hne]; [done|].
      by rewrite lookup_insert_ne in Hl'.
Qed.

Lemma ghost_val_ok (h : gmap nat ndarray) Ny ghost :
  ghost_ref_ok h Ny ghost → ghost_ok Ny (ghost_val h ghost).
Proof.
  intros Hok r. destruct ghost as [l|]; [simpl|done].
  destruct (Hok l eq_refl) as (a & -> & Hlen). by intros [= <-].
Qed.

Lemma ghost_ref_ok_mono (h h1 : gmap nat ndarray) Ny ghost :
  (∀ l a, h !! l = Some a → h1 !! l = Some a) →
  ghost_ref_ok h Ny ghost →
  ghost_ref_ok h1 Ny ghost ∧ ghost_val h1 ghost = ghost_val h ghost.
Proof.
  intros Hext Hok. split.
  - intros l ->. destruct (Hok l eq_refl) as (a & Ha & Hlen). eauto.
  - destruct ghost as [l|]; [simpl|done].
    destruct (Hok l eq_refl) as (a & Ha & _). by rewrite Ha, (Hext _ _ Ha).
Qed.

(** C8. [update_block] returns a newly allocated block of the shape of its
    input; every array that exists when it is called, the input block and
    the ghost rows among them, is unchanged when it returns; and the new
    block is the one computed from the contents the arguments have at the
    call, each cell being the [next_state] of that cell in the padded old
    block. *)
Theorem update_block_heap_frame (h : gmap nat ndarray) (block : nat)
    (top_ghost bottom_ghost : option nat) p f g Ny block_rows :
  h !! block = Some (Arr2 Ny block_rows) → has_cols Ny block_rows →
  ghost_ref_ok h Ny top_ghost → ghost_ref_ok h Ny bottom_ghost →
  ∃ new h' g' new_rows,
    update_block_heap h block top_ghost bottom_ghost p f g = Some (new, h', g') ∧
    h !! new = None ∧
    h' !! new = Some (Arr2 Ny new_rows) ∧
    length new_rows = length block_rows ∧ has_cols Ny new_rows ∧
    (∀ l a, h !! l = Some a → h' !! l = Some a) ∧
    update_block Ny block_rows (ghost_val h top_ghost)
      (ghost_val h bottom_ghost) p f g = Some (new_rows, g') ∧
    (∀ i j, (i < length block_rows)%nat → (j < Ny)%nat →
       ∃ n, cell new_rows i j
            = Some (next_state
                      (padded_block Ny block_rows (ghost_val h top_ghost)
                         (ghost_val h bottom_ghost)) Ny p f i j (stream g n))).
Proof.
  intros Hblock Hcols Htop Hbot.
  unfold update_block_heap. rewrite Hblock. simpl.
  destruct (pad_heap h Ny top_ghost Htop)
    as (lt & h1 & at_ & -> & Hlt & Het & Hext1 & Hnew1).
  simpl.
  destruct (ghost_ref_ok_mono h h1 Ny bottom_ghost Hext1 Hbot) as [Hbot1 Hbv].
  destruct (pad_heap h1 Ny bottom_ghost Hbot1)
    as (lb & h2 & ab & -> & Hlb & Heb & Hext2 & Hnew2).
  simpl. rewrite Hbv in Heb.
  unfold alloc. cbn beta iota zeta.
  set (lpad := fresh (dom h2)).
  assert (h2 !! lpad = None) as Hfresh3 by apply not_elem_of_dom, is_fresh.
  assert (h2 !! block = Some (Arr2 Ny block_rows)) as Hblock2 by eauto.
  assert (lpad ≠ block) as Hpb by congruence.
  rewrite load2_insert_ne by done.
  replace (load2 h2 block) with block_rows by (unfold load2; by rewrite Hblock2).
  replace (load_row h2 lt) with [elements at_]
    by (unfold load_row; by rewrite (Hext2 _ _ Hlt)).
  replace (load_row h2 lb) with [elements ab] by (unfold load_row; by rewrite Hlb).
  rewrite Het, Heb.
  change (vstack3 [?t] block_rows [?b]) with (t :: block_rows ++ [b]).
  fold (padded_block Ny block_rows (ghost_val h top_ghost) (ghost_val h bottom_ghost)).
  set (padded_rows := padded_block _ _ _ _).
  set (h3 := <[lpad := Arr2 Ny padded_rows]> h2).
  set (lnew := fresh (dom h3)).
  assert (h3 !! lnew = None) as Hfresh4 by apply not_elem_of_dom, is_fresh.
  assert (lnew ≠ lpad) as Hne.
  { intros Heq. unfold h3 in Hfresh4. by rewrite Heq, lookup_insert_eq in Hfresh4. }
  assert (h2 !! lnew = None) as Hfresh5.
  { unfold h3 in Hfresh4. by rewrite lookup_insert_ne in Hfresh4. }
  rewrite (update_rows_heap_sim h3 lpad lnew Ny p f Ny padded_rows
             (lookup_insert_eq _ _ _) Hne).
  cbv zeta.
  pose proof (ghost_val_ok h Ny top_ghost Htop) as Hto.
  pose proof (ghost_val_ok h Ny bottom_ghost Hbot) as Hbo.
  destruct (update_block_cells Ny block_rows _ _ p f g Hcols Hto Hbo)
    as (new_rows & g' & Hrun & Hlen & Hcols' & _ & Hcells).
  pose proof Hrun as Hrun'. rewrite update_block_unfold in Hrun' by done.
  injection Hrun' as Hrun'. fold padded_rows in Hrun'. rewrite Hrun'. simpl.
  exists lnew, (<[lnew := Arr2 Ny new_rows]> h3), g', new_rows.
  split; [done|]. split; [by apply Hnew1, Hnew2|].
  split; [apply lookup_insert_eq|]. split; [done|]. split; [done|].
  split; [|split; [done | done]].
  intros l a Ha.
  assert (h2 !! l = Some a) as Ha2 by eauto.
  unfold h3. rewrite !lookup_insert_ne by congruence. done.
Qed.

Lemma update_block_heap_frame_witness :
  ∃ new h' g' new_rows,
    update_block_heap store2x4 0 None (Some 1%nat) (1 # 2) (1 # 3) half_rng
    = Some (new, h', g') ∧
    store2x4 !! new = None ∧
    h' !! new = Some (Arr2 4 new_rows) ∧
    length new_rows = length [[1;1;1;1]; [1;1;2;1]] ∧ has_cols 4 new_rows ∧
    (∀ l a, store2x4 !! l = Some a → h' !! l = Some a) ∧
    update_block 4 [[1;1;1;1]; [1;1;2;1]] (ghost_val store2x4 None)
      (ghost_val store2x4 (Some 1%nat)) (1 # 2) (1 # 3) half_rng
    = Some (new_rows, g') ∧
    (∀ i j, (i < length [[1;1;1;1]; [1;1;2;1]])%nat → (j < 4)%nat →
       ∃ n, cell new_rows i j
            = Some (next_state
                      (padded_block 4 [[1;1;1;1]; [1;1;2;1]]
                         (ghost_val store2x4 None)
                         (ghost_val store2x4 (Some 1%nat)))
                      4 (1 # 2) (1 # 3) i j (stream half_rng n))).
Proof.
  apply update_block_heap_frame.
  - reflexivity.
  - repeat constructor.
  - intros l. discriminate.
  - intros l [= <-]. exists (Arr1 [1; 2; 1; 1]). split; reflexivity.
Defined.

(** ** The step without growth and lightning *)

Lemma quiet_step_length padded Ny start rows :
  length (quiet_step padded Ny start rows) = rows.
Proof. unfold quiet_step. by rewrite length_fmap, length_seq. Qed.

Lemma quiet_step_has_cols padded Ny start rows :
  has_cols Ny (quiet_step padded Ny start rows).
Proof.
  unfold has_cols, quiet_step. apply Forall_fmap, Forall_forall.
  intros i _. simpl. by rewrite length_fmap, length_seq.
Qed.

Lemma cell_quiet_step padded Ny start rows i j :
  (i < rows)%nat → (j < Ny)%nat →
  cell (quiet_step padded Ny start rows) i j
  = Some (next_state padded Ny 0 0 (start + i) j 0).
Proof.
  intros Hi Hj. unfold cell, quiet_step.
  rewrite list_lookup_fmap, lookup_seq_lt by done. simpl.
  by rewrite list_lookup_fmap, lookup_seq_lt.
Qed.

Lemma quiet_step_app padded Ny start rows1 rows2 :
  quiet_step padded Ny start (rows1 + rows2)
  = quiet_step padded Ny start rows1
    ++ quiet_step padded Ny (start + rows1) rows2.
Proof. unfold quiet_step. by rewrite seq_app, fmap_app. Qed.

(** With [p = 0], [f = 0] and draws in [[0, 1)], [update_block] returns
    the quiet step of the padded block. *)
Lemma update_block_quiet Ny block top bot g :
  has_cols Ny block → ghost_ok Ny top → ghost_ok Ny bot → rng_ok g →
  ∃ g', update_block Ny block top bot 0 0 g
        = Some (quiet_step (padded_block Ny block top bot) Ny 0 (length block), g').
Proof.
  intros Hc Ht Hb Hg.
  destruct (update_block_cells Ny block top bot 0 0 g Hc Ht Hb)
    as (new & g' & -> & Hlen & Hcols & _ & Hcells).
  exists g'. do 2 f_equal.
  apply (grid_ext _ _ Ny); [done | apply quiet_step_has_cols | |].
  - by rewrite quiet_step_length.
  - intros i j Hi Hj. rewrite Hlen in Hi.
    destruct (Hcells i j Hi Hj) as [n ->].
    rewrite cell_quiet_step by done. f_equal. simpl.
    apply next_state_no_draw, Hg.
Qed.

(** *** The next state of a row depends on three rows of the snapshot *)

Lemma scan_dj_local P P' Ny i i' j di djs :
  P !! Z.to_nat (Z.of_nat i + 1 + di) = P' !! Z.to_nat (Z.of_nat i' + 1 + di) →
  scan_dj P Ny i j di djs = scan_dj P' Ny i' j di djs.
Proof.
  intros Hrow. induction djs as [|dj djs IH]; [done|]. cbn [scan_dj].
  rewrite IH. unfold at2. by rewrite Hrow.
Qed.

Lemma next_state_local P P' Ny p f i i' j r :
  (∀ d, (d ≤ 2)%nat → P !! (i + d)%nat = P' !! (i' + d)%nat) →
  next_state P Ny p f i j r = next_state P' Ny p f i' j r.
Proof.
  intros Hrows. unfold next_state, moore_burning. cbn [scan_di].
  rewrite (scan_dj_local P P' Ny i i' j (-1)), (scan_dj_local P P' Ny i i' j 0),
    (scan_dj_local P P' Ny i i' j 1).
  - unfold at2.
    replace (Z.to_nat (Z.of_nat i + 1)) with (i + 1)%nat by lia.
    replace (Z.to_nat (Z.of_nat i' + 1)) with (i' + 1)%nat by lia.
    by rewrite (Hrows 1%nat) by lia.
  - replace (Z.to_nat (Z.of_nat i + 1 + 1)) with (i + 2)%nat by lia.
    replace (Z.to_nat (Z.of_nat i' + 1 + 1)) with (i' + 2)%nat by lia.
    apply Hrows. lia.
  - replace (Z.to_nat (Z.of_nat i + 1 + 0)) with (i + 1)%nat by lia.
    replace (Z.to_nat (Z.of_nat i' + 1 + 0)) with (i' + 1)%nat by lia.
    apply Hrows. lia.
  - replace (Z.to_nat (Z.of_nat i + 1 + -1)) with (i + 0)%nat by lia.
    replace (Z.to_nat (Z.of_nat i' + 1 + -1)) with (i' + 0)%nat by lia.
    apply Hrows. lia.
Qed.

(** The quiet step of a window of the snapshot is the window of the quiet
    step. *)
Lemma quiet_step_window above P below Ny rows :
  (rows + 2 ≤ length P)%nat →
  quiet_step (above ++ P ++ below) Ny (length above) rows
  = quiet_step P Ny 0 rows.
Proof.
  intros Hlen. unfold quiet_step.
  rewrite <- (Nat.add_0_r (length above)) at 1.
  rewrite <- fmap_add_seq, <- list_fmap_compose.
  apply list_fmap_ext. intros k i Hk. apply lookup_seq in Hk as [-> Hk].
  simpl. apply list_fmap_ext. intros _ j _. simpl.
  apply next_state_local. intros d Hd.
  rewrite lookup_app_r by lia.
  replace (length above + k + d - length above)%nat with (k + d)%nat by lia.
  rewrite lookup_app_l by lia. done.
Qed.

(** ** Partition invariance *)

(** The ghost row a worker receives from above is the row that precedes
    its block in the whole grid, or is absent at the top of the grid. *)
Lemma top_ghost_window Ny (pre rest : list (list (list Z) * rng)) :
  Forall (worker_ok Ny) pre →
  ∃ tg above,
    (if decide (0 < length pre)%nat
     then up ← (pre ++ rest) !! (length pre - 1)%nat; Some <$> bottom_row up.1
     else Some None) = Some tg ∧
    ghost_ok Ny tg ∧
    replicate Ny EMPTY :: concat pre.*1
    = above ++ [default (replicate Ny EMPTY) tg].
Proof.
  intros Hok. destruct pre as [|w0 pre0] using rev_ind.
  { exists None, []. repeat split; [apply ghost_ok_None]. }
  clear IHpre0. apply Forall_app in Hok as [_ Hw].
  apply Forall_singleton in Hw as (Hc & Hne & _).
  destruct (exists_last Hne) as (B & r & HB).
  exists (Some r), (replicate Ny EMPTY :: concat pre0.*1 ++ B).
  rewrite length_app. simpl. rewrite decide_True by lia.
  rewrite <- app_assoc, lookup_app_r by lia.
  replace (length pre0 + 1 - 1 - length pre0)%nat with 0%nat by lia. simpl.
  unfold bottom_row. rewrite HB, last_snoc. simpl. split; [done|]. split.
  - apply ghost_ok_Some. unfold has_cols in Hc. rewrite HB in Hc.
    apply Forall_app in Hc as [_ Hr]. exact (Forall_inv Hr).
  - rewrite fmap_app, concat_app. simpl. rewrite HB, app_nil_r.
    by rewrite <- !app_assoc.
Qed.

(** The ghost row a worker receives from below is the row that follows its
    block in the whole grid, or is absent at the bottom of the grid. *)
Lemma bottom_ghost_window Ny (pre post : list (list (list Z) * rng)) w :
  Forall (worker_ok Ny) post →
  ∃ bg below,
    (if decide (length pre < length (pre ++ w :: post) - 1)%nat
     then down ← (pre ++ w :: post) !! (length pre + 1)%nat;
          Some <$> top_row down.1
     else Some None) = Some bg ∧
    ghost_ok Ny bg ∧
    concat post.*1 ++ [replicate Ny EMPTY]
    = default (replicate Ny EMPTY) bg :: below.
Proof.
  intros Hok. rewrite length_app. simpl. destruct post as [|[B g] post].
  { exists None, []. rewrite decide_False by (simpl; lia).
    repeat split; [apply ghost_ok_None]. }
  apply Forall_cons in Hok as [(Hc & Hne & _) _]. simpl in *.
  destruct B as [|r B]; [done|].
  exists (Some r), (B ++ concat post.*1 ++ [replicate Ny EMPTY]).
  rewrite decide_True by lia.
  rewrite lookup_app_r by lia.
  replace (length pre + 1 - length pre)%nat with 1%nat by lia. simpl.
  split; [done|]. split.
  - apply ghost_ok_Some. by apply Forall_cons in Hc as [? _].
  - by rewrite <- !app_assoc.
Qed.

(** A worker's step without growth and lightning yields the rows of the
    quiet step of the whole grid that belong to its block. *)
Lemma worker_step_quiet Ny (pre post : list (list (list Z) * rng)) w :
  Forall (worker_ok Ny) (pre ++ w :: post) →
  ∃ g',
    worker_step Ny 0 0 (pre ++ w :: post) (length pre) w
    = Some (quiet_step
              (padded_block Ny (concat (pre ++ w :: post).*1) None None) Ny
              (length (concat pre.*1)) (length w.1), g').
Proof.
  intros Hok. apply Forall_app in Hok as [Hpre Hok].
  apply Forall_cons in Hok as [(Hc & Hne & Hg) Hpost].
  destruct w as [grid g]. simpl in *. unfold worker_step.
  destruct (top_ghost_window Ny pre ((grid, g) :: post) Hpre)
    as (tg & above & -> & Htg & Habove).
  destruct (bottom_ghost_window Ny pre post (grid, g) Hpost)
    as (bg & below & -> & Hbg & Hbelow).
  destruct grid as [|r0 grid0] eqn:Hgrid; [done|]. rewrite <- Hgrid in *.
  assert (top_row grid = Some r0) as -> by (by rewrite Hgrid).
  assert (is_Some (bottom_row grid)) as [rl ->] by (by apply last_is_Some).
  simpl.
  destruct (update_block_quiet Ny grid tg bg g Hc Htg Hbg Hg) as [g' ->].
  exists g'. do 2 f_equal.
  assert (length above = length (concat pre.*1)) as <-.
  { apply (f_equal length) in Habove. rewrite length_app in Habove.
    simpl in Habove. lia. }
  rewrite <- (quiet_step_window above _ below) by (unfold padded_block; simpl;
    rewrite length_app; simpl; lia).
  f_equal. unfold padded_block at 2.
  rewrite fmap_app, fmap_cons, concat_app, concat_cons.
  cbn [default fst].
  transitivity ((replicate Ny EMPTY :: concat pre.*1) ++ grid
                ++ (concat post.*1 ++ [replicate Ny EMPTY])).
  - rewrite Habove, Hbelow. unfold padded_block. rewrite <- !app_assoc.
    f_equal. cbn [app]. f_equal. by rewrite <- app_assoc.
  - cbn [app]. f_equal. by rewrite <- !app_assoc.
Qed.

Lemma mapM_imap_fst {A B C} (F : nat → A → option (B * C)) (Q : nat → A → B)
    (l : list A) :
  (∀ k x, l !! k = Some x → ∃ c, F k x = Some (Q k x, c)) →
  ∃ outs, mapM id (imap F l) = Some outs ∧ outs.*1 = imap Q l.
Proof.
  revert F Q. induction l as [|x l IH]; intros F Q HF.
  { by exists []. }
  destruct (HF 0%nat x eq_refl) as [c Hx].
  destruct (IH (F ∘ S) (Q ∘ S)) as (outs & Houts & Hfst).
  { intros k y Hk. apply (HF (S k) y Hk). }
  exists ((Q 0%nat x, c) :: outs). rewrite !imap_cons. split.
  - cbn [mapM]. rewrite Hx. simpl. by rewrite Houts.
  - by rewrite fmap_cons, Hfst.
Qed.

(** The rows that the workers compute, put together in rank order, are the
    rows of the quiet step of the whole grid. *)
Lemma concat_quiet_blocks PG Ny (ws : list (list (list Z) * rng)) o :
  concat (imap (λ k w, quiet_step PG Ny (o + length (concat (take k ws).*1))
                         (length w.1)) ws)
  = quiet_step PG Ny o (length (concat ws.*1)).
Proof.
  revert o. induction ws as [|w ws IH]; intros o; [done|].
  rewrite imap_cons, fmap_cons, !concat_cons, length_app, quiet_step_app.
  cbn [take fmap list_fmap concat length]. rewrite Nat.add_0_r. f_equal.
  rewrite <- IH. f_equal. apply imap_ext. intros k x Hk. simpl.
  by rewrite length_app, Nat.add_assoc.
Qed.

(** C1. Without growth and lightning ([p = 0], [f = 0]), the workers of any
    split of a grid into consecutive non-empty row blocks, each applying
    [update_block] to its block with the last row of the block above as top
    ghost row (none for the first block) and the first row of the block
    below as bottom ghost row (none for the last block), produce blocks
    whose concatenation in rank order is the block [update_block] returns
    for the whole grid with both ghost rows absent. *)
Theorem partition_invariance Ny (ws : list (list (list Z) * rng)) (g : rng) :
  Forall (worker_ok Ny) ws → rng_ok g →
  ∃ outs whole g',
    distributed_step Ny 0 0 ws = Some outs ∧
    update_block Ny (concat ws.*1) None None 0 0 g = Some (whole, g') ∧
    concat outs.*1 = whole.
Proof.
  intros Hok Hg.
  set (PG := padded_block Ny (concat ws.*1) None None).
  destruct (mapM_imap_fst (worker_step Ny 0 0 ws)
              (λ k w, quiet_step PG Ny (0 + length (concat (take k ws).*1))
                        (length w.1)) ws) as (outs & Hstep & Hfst).
  { intros k w Hk.
    pose proof (take_drop_middle ws k w Hk) as Hsplit.
    pose proof Hok as Hok'. rewrite <- Hsplit in Hok'.
    destruct (worker_step_quiet Ny _ _ _ Hok') as [g' Hw].
    rewrite Hsplit in Hw. rewrite length_take_le in Hw
      by (apply Nat.lt_le_incl; by eapply lookup_lt_Some).
    exists g'. by rewrite Hw. }
  assert (has_cols Ny (concat ws.*1)) as Hcols.
  { apply Forall_concat, Forall_fmap. eapply Forall_impl; [exact Hok|].
    by intros w (? & _). }
  destruct (update_block_quiet Ny (concat ws.*1) None None g Hcols
              (ghost_ok_None Ny) (ghost_ok_None Ny) Hg) as [g' Hwhole].
  exists outs, (quiet_step PG Ny 0 (length (concat ws.*1))), g'.
  split; [done|]. split; [done|].
  rewrite Hfst. apply concat_quiet_blocks.
Qed.

Lemma workers4_ok : Forall (worker_ok 4) workers4.
Proof.
  repeat constructor; try discriminate; apply rng_ok_half.
Qed.

Lemma partition_invariance_witness :
  ∃ outs whole g',
    distributed_step 4 0 0 workers4 = Some outs ∧
    update_block 4 (concat workers4.*1) None None 0 0 half_rng
    = Some (whole, g') ∧
    concat outs.*1 = whole.
Proof.
  apply partition_invariance.
  - apply workers4_ok.
  - apply rng_ok_half.
Defined.

(** The spec's 4x4 scenario on two workers: the second worker sees the fire
    of row 1 through its top ghost row. *)
Example distributed_step_4x4 :
  (λ outs, outs.*1) <$> distributed_step 4 0 0 workers4
  = Some [[[1;2;2;2]; [1;2;0;2]]; [[1;2;2;2]; [1;1;1;1]]].
Proof. vm_compute. reflexivity. Qed.

(** ** The sequential step *)

(** *** Cells of the NumPy expressions of [step] *)

Lemma cell_fmap2 {A B} (f : A → B) (a : list (list A)) i j :
  cell ((λ r : list A, f <$> r) <$> a) i j = f <$> cell a i j.
Proof.
  unfold cell. rewrite list_lookup_fmap. destruct (a !! i) as [r|]; [simpl|done].
  apply list_lookup_fmap.
Qed.

Lemma cell_zip_with2 {A B C} (f : A → B → C) (a : list (list A))
    (b : list (list B)) i j :
  cell (zip_with (zip_with f) a b) i j
  = x ← cell a i j; y ← cell b i j; Some (f x y).
Proof.
  unfold cell. rewrite lookup_zip_with.
  destruct (a !! i) as [ra|]; [simpl|done].
  destruct (b !! i) as [rb|]; simpl.
  - apply lookup_zip_with.
  - by destruct (ra !! j).
Qed.

Lemma cell_random_sample Nx Ny g i j :
  (i < Nx)%nat → (j < Ny)%nat →
  cell (random_sample Nx Ny g).1 i j = Some (stream g (pos g + i * Ny + j)%nat).
Proof.
  intros Hi Hj. unfold cell, random_sample. simpl.
  rewrite list_lookup_fmap, lookup_seq_lt by done. simpl.
  by rewrite list_lookup_fmap, lookup_seq_lt.
Qed.

(** *** Slices as shifts *)

Lemma slice1_shift {A} (dst src : slice) (d : Z) (l : list A) (i : nat) :
  slice_shift dst src = Some d → (i < length l)%nat →
  (if decide (slice_lo dst (length l) ≤ i < slice_hi dst (length l))%nat
   then slice1 src l !! (i - slice_lo dst (length l))%nat
   else None)
  = if decide (0 ≤ Z.of_nat i + d) then l !! Z.to_nat (Z.of_nat i + d) else None.
Proof.
  intros Hd Hi. unfold slice1.
  destruct dst, src; cbn [slice_shift] in Hd; simplify_eq;
    cbn [slice_lo slice_hi].
  - rewrite decide_True by lia. rewrite decide_True by lia.
    rewrite !Nat.sub_0_r, drop_0, take_ge by lia. f_equal. lia.
  - case_decide as Hr.
    + rewrite decide_True by lia. rewrite !Nat.sub_0_r, drop_0.
      rewrite lookup_take_lt by lia. f_equal. lia.
    + rewrite decide_False by lia. done.
  - rewrite (decide_True (P := 0 ≤ Z.of_nat i + 1)) by lia.
    case_decide as Hr.
    + rewrite Nat.sub_0_r, lookup_take_lt by lia. rewrite lookup_drop. f_equal. lia.
    + symmetry. apply lookup_ge_None_2. lia.
Qed.

Lemma cell_ior_slice sr sc (mask src : list (list bool)) i j :
  cell (ior_slice sr sc mask src) i j
  = r ← mask !! i; b ← r !! j;
    Some (if decide (slice_lo sr (length mask) ≤ i < slice_hi sr (length mask) ∧
                     slice_lo sc (length r) ≤ j < slice_hi sc (length r))%nat
          then b || default false
                      (cell src (i - slice_lo sr (length mask))
                                (j - slice_lo sc (length r)))
          else b).
Proof.
  unfold cell, ior_slice. rewrite list_lookup_imap.
  destruct (mask !! i) as [r|]; [simpl|done].
  rewrite list_lookup_imap. by destruct (r !! j).
Qed.

Lemma ior_slice_shape sr sc (mask src : list (list bool)) Ny :
  Forall (λ r, length r = Ny) mask →
  length (ior_slice sr sc mask src) = length mask ∧
  Forall (λ r, length r = Ny) (ior_slice sr sc mask src).
Proof.
  intros Hc. unfold ior_slice. split; [apply length_imap|].
  apply Forall_lookup. intros i r. rewrite list_lookup_imap.
  destruct (mask !! i) as [r0|] eqn:Hr0; [simpl|done]. intros [= <-].
  rewrite length_imap. by eapply (Forall_lookup_1 _ _ _ _ Hc).
Qed.

Lemma ior_slice_shift sr sc sr' sc' dr dc (mask g : list (list bool)) Ny i j b :
  Forall (λ r, length r = Ny) mask → Forall (λ r, length r = Ny) g →
  length mask = length g →
  slice_shift sr sr' = Some dr → slice_shift sc sc' = Some dc →
  (i < length g)%nat → (j < Ny)%nat → cell mask i j = Some b →
  cell (ior_slice sr sc mask (slice2 sr' sc' g)) i j
  = Some (b || flag_at g (Z.of_nat i + dr) (Z.of_nat j + dc)).
Proof.
  intros Hm Hg Hlen Hdr Hdc Hi Hj Hb. rewrite cell_ior_slice.
  unfold cell in Hb. destruct (mask !! i) as [r|] eqn:Hr; [simpl in *|done].
  rewrite Hb. simpl. f_equal.
  pose proof (Forall_lookup_1 _ _ _ _ Hm Hr) as Hlr. simpl in Hlr.
  rewrite Hlr, Hlen.
  transitivity
    (b || default false
            ((if decide (slice_lo sr (length g) ≤ i < slice_hi sr (length g))%nat
              then slice1 sr' g !! (i - slice_lo sr (length g))%nat else None)
               ≫= λ gr, if decide (slice_lo sc Ny ≤ j < slice_hi sc Ny)%nat
                         then slice1 sc' gr !! (j - slice_lo sc Ny)%nat
                         else None)).
  { unfold cell, slice2. rewrite list_lookup_fmap.
    destruct (decide (slice_lo sr (length g) ≤ i < slice_hi sr (length g))%nat);
      destruct (decide (slice_lo sc Ny ≤ j < slice_hi sc Ny)%nat);
      [rewrite decide_True by done | rewrite decide_False by naive_solver ..];
      destruct (slice1 sr' g !! (i - slice_lo sr (length g))%nat); simpl;
      by rewrite ?orb_false_r. }
  pose proof (slice1_shift sr sr' dr g i Hdr Hi) as Hrow.
  assert (∀ gr : list bool, length gr = Ny →
            (if decide (slice_lo sc Ny ≤ j < slice_hi sc Ny)%nat
             then slice1 sc' gr !! (j - slice_lo sc Ny)%nat else None)
            = if decide (0 ≤ Z.of_nat j + dc)
              then gr !! Z.to_nat (Z.of_nat j + dc) else None) as Hcol.
  { intros gr Hlg. rewrite <- Hlg. apply slice1_shift; [done | lia]. }
  rewrite Hrow. f_equal. unfold flag_at, cell.
  destruct (decide (0 ≤ Z.of_nat i + dr)) as [Hx|Hx];
    [|simpl; by rewrite decide_False by naive_solver].
  destruct (g !! Z.to_nat (Z.of_nat i + dr)) as [gr|] eqn:Hgr; simpl;
    [|by destruct (decide (0 ≤ Z.of_nat i + dr ∧ 0 ≤ Z.of_nat j + dc))].
  rewrite (Hcol gr) by apply (Forall_lookup_1 _ _ _ _ Hg Hgr).
  destruct (decide (0 ≤ Z.of_nat j + dc));
    [rewrite decide_True by done | rewrite decide_False by naive_solver]; done.
Qed.

Lemma zeros_like_shape {A} (g : list (list A)) Ny i j :
  Forall (λ r, length r = Ny) g → (i < length g)%nat → (j < Ny)%nat →
  (Forall (λ r, length r = Ny) (zeros_like g) ∧
   length (zeros_like g) = length g) ∧
  cell (zeros_like g) i j = Some false.
Proof.
  intros Hg Hi Hj. unfold zeros_like. split; [split|].
  - apply Forall_fmap. eapply Forall_impl; [exact Hg|].
    intros r Hr. simpl. by rewrite length_fmap.
  - apply length_fmap.
  - rewrite cell_fmap2.
    by destruct (cell_is_Some g Ny i j Hg Hi Hj) as [v ->].
Qed.

Lemma ior_slice_next sr sc sr' sc' dr dc (mask g : list (list bool)) Ny i j b :
  Forall (λ r, length r = Ny) g → (i < length g)%nat → (j < Ny)%nat →
  slice_shift sr sr' = Some dr → slice_shift sc sc' = Some dc →
  (Forall (λ r, length r = Ny) mask ∧ length mask = length g) ∧
  cell mask i j = Some b →
  (Forall (λ r, length r = Ny) (ior_slice sr sc mask (slice2 sr' sc' g)) ∧
   length (ior_slice sr sc mask (slice2 sr' sc' g)) = length g) ∧
  cell (ior_slice sr sc mask (slice2 sr' sc' g)) i j
  = Some (b || flag_at g (Z.of_nat i + dr) (Z.of_nat j + dc)).
Proof.
  intros Hg Hi Hj Hdr Hdc [[Hm Hlen] Hb].
  destruct (ior_slice_shape sr sc mask (slice2 sr' sc' g) Ny Hm) as [Hl Hc].
  split; [split; [done | congruence]|].
  by apply (ior_slice_shift sr sc sr' sc' dr dc mask g Ny).
Qed.

(** The mask [step] builds with eight shifted slices marks the positions
    with a set flag among their eight neighbours. *)
Lemma cell_neighbour_mask (g : list (list bool)) Ny i j :
  Forall (λ r, length r = Ny) g → (i < length g)%nat → (j < Ny)%nat →
  (Forall (λ r, length r = Ny) (neighbour_mask g) ∧
   length (neighbour_mask g) = length g) ∧
  cell (neighbour_mask g) i j
  = Some (false
          || flag_at g (Z.of_nat i + 1) (Z.of_nat j + 0)
          || flag_at g (Z.of_nat i + -1) (Z.of_nat j + 0)
          || flag_at g (Z.of_nat i + 0) (Z.of_nat j + 1)
          || flag_at g (Z.of_nat i + 0) (Z.of_nat j + -1)
          || flag_at g (Z.of_nat i + 1) (Z.of_nat j + 1)
          || flag_at g (Z.of_nat i + 1) (Z.of_nat j + -1)
          || flag_at g (Z.of_nat i + -1) (Z.of_nat j + 1)
          || flag_at g (Z.of_nat i + -1) (Z.of_nat j + -1)).
Proof.
  intros Hg Hi Hj. unfold neighbour_mask. cbv zeta.
  do 8 (apply (ior_slice_next _ _ _ _ _ _ _ g Ny); try done).
  by apply zeros_like_shape.
Qed.

(** *** The neighbour scan of [update_block] as a disjunction of flags *)

Lemma at2_padded_flag Ny grid (x y : Z) :
  -1 ≤ x → 0 ≤ y →
  (at2 (padded_block Ny grid None None) (x + 1) y =? BURN)
  = flag_at (eq_mask BURN grid) x y.
Proof.
  intros Hx Hy. unfold at2, flag_at, padded_block, eq_mask. simpl.
  destruct (decide (x = -1)) as [->|Hne].
  { simpl.
    by destruct (replicate Ny EMPTY !! Z.to_nat y) as [c|] eqn:Hc;
      [apply lookup_replicate in Hc as [-> _]|]. }
  rewrite decide_True by lia.
  replace (Z.to_nat (x + 1)) with (S (Z.to_nat x)) by lia. simpl.
  rewrite cell_fmap2. unfold cell.
  destruct (decide (Z.to_nat x < length grid)%nat) as [Hlt|Hge].
  - rewrite lookup_app_l by done.
    destruct (grid !! Z.to_nat x) as [r|]; [simpl|done].
    by destruct (r !! Z.to_nat y).
  - rewrite (lookup_ge_None_2 grid) by lia. simpl.
    destruct ((grid ++ [replicate Ny EMPTY]) !! Z.to_nat x) as [r|] eqn:Hr;
      [simpl|done].
    apply lookup_app_Some in Hr as [Hr|[_ Hr]].
    + apply lookup_lt_Some in Hr. lia.
    + apply list_lookup_singleton_Some in Hr as [_ <-].
      by destruct (replicate Ny EMPTY !! Z.to_nat y) as [c|] eqn:Hc;
        [apply lookup_replicate in Hc as [-> _]|].
Qed.

Lemma flag_at_outside Ny grid (x y : Z) :
  has_cols Ny grid → Z.of_nat Ny ≤ y → flag_at (eq_mask BURN grid) x y = false.
Proof.
  intros Hc Hy. unfold flag_at. case_decide; [|done].
  unfold eq_mask. rewrite cell_fmap2. unfold cell.
  destruct (grid !! Z.to_nat x) as [r|] eqn:Hr; [simpl|done].
  rewrite lookup_ge_None_2; [done|].
  rewrite (Forall_lookup_1 _ _ _ _ Hc Hr). lia.
Qed.

Lemma scan_dj_flags Ny grid i j di :
  has_cols Ny grid → -1 ≤ di →
  scan_dj (padded_block Ny grid None None) Ny i j di [-1; 0; 1]
  = (negb (di =? 0)
     && flag_at (eq_mask BURN grid) (Z.of_nat i + di) (Z.of_nat j + 0))
    || flag_at (eq_mask BURN grid) (Z.of_nat i + di) (Z.of_nat j + -1)
    || flag_at (eq_mask BURN grid) (Z.of_nat i + di) (Z.of_nat j + 1).
Proof.
  intros Hc Hdi. cbn [scan_dj].
  replace (Z.of_nat i + 1 + di) with (Z.of_nat i + di + 1) by lia.
  replace (-1 =? 0) with false by done. replace (1 =? 0) with false by done.
  replace (0 =? 0) with true by done. rewrite !andb_false_r, andb_true_r.
  assert (∀ dj, -1 ≤ dj →
            (if (Z.of_nat j + dj <? 0) || (Z.of_nat j + dj >=? Z.of_nat Ny)
             then false
             else at2 (padded_block Ny grid None None) (Z.of_nat i + di + 1)
                    (Z.of_nat j + dj) =? BURN)
            = flag_at (eq_mask BURN grid) (Z.of_nat i + di) (Z.of_nat j + dj))
    as Hterm.
  { intros dj Hdj. rewrite Z.geb_leb.
    destruct (Z.ltb_spec (Z.of_nat j + dj) 0) as [Hneg|Hpos]; simpl.
    { unfold flag_at. by rewrite decide_False by lia. }
    destruct (Z.leb_spec (Z.of_nat Ny) (Z.of_nat j + dj)) as [Hout|Hin].
    { symmetry. by apply (flag_at_outside Ny). }
    apply at2_padded_flag; lia. }
  rewrite <- !Hterm by lia.
  destruct (di =? 0);
    repeat match goal with
           | |- context [if ?b then _ else _] => destruct b
           end;
    repeat match goal with
           | |- context [at2 ?a ?u ?v =? BURN] => destruct (at2 a u v =? BURN)
           end; done.
Qed.

Lemma moore_burning_flags Ny grid i j :
  has_cols Ny grid →
  moore_burning (padded_block Ny grid None None) Ny i j
  = false
    || flag_at (eq_mask BURN grid) (Z.of_nat i + 1) (Z.of_nat j + 0)
    || flag_at (eq_mask BURN grid) (Z.of_nat i + -1) (Z.of_nat j + 0)
    || flag_at (eq_mask BURN grid) (Z.of_nat i + 0) (Z.of_nat j + 1)
    || flag_at (eq_mask BURN grid) (Z.of_nat i + 0) (Z.of_nat j + -1)
    || flag_at (eq_mask BURN grid) (Z.of_nat i + 1) (Z.of_nat j + 1)
    || flag_at (eq_mask BURN grid) (Z.of_nat i + 1) (Z.of_nat j + -1)
    || flag_at (eq_mask BURN grid) (Z.of_nat i + -1) (Z.of_nat j + 1)
    || flag_at (eq_mask BURN grid) (Z.of_nat i + -1) (Z.of_nat j + -1).
Proof.
  intros Hc. unfold moore_burning. cbn [scan_di].
  rewrite !(scan_dj_flags Ny grid) by (done || lia).
  replace (-1 =? 0) with false by done. replace (1 =? 0) with false by done.
  replace (0 =? 0) with true by done. cbn [negb andb].
  repeat match goal with
         | |- context [flag_at ?g ?x ?y] => generalize (flag_at g x y); intros ?
         end.
  repeat match goal with b : bool |- _ => destruct b end; done.
Qed.

(** *** Shapes of the arrays of [step] *)

Lemma shape_fmap2 {A B} (f : A → B) Nx Ny (a : list (list A)) :
  shape_is Nx Ny a → shape_is Nx Ny ((λ r : list A, f <$> r) <$> a).
Proof.
  intros [Hl Hc]. split; [by rewrite length_fmap|].
  apply Forall_fmap. eapply Forall_impl; [exact Hc|].
  intros r Hr. simpl. by rewrite length_fmap.
Qed.

Lemma shape_zip_with2 {A B C} (f : A → B → C) Nx Ny
    (a : list (list A)) (b : list (list B)) :
  shape_is Nx Ny a → shape_is Nx Ny b →
  shape_is Nx Ny (zip_with (zip_with f) a b).
Proof.
  intros [Hla Hca] [Hlb Hcb]. split.
  - rewrite length_zip_with. lia.
  - apply Forall_lookup. intros i r. rewrite lookup_zip_with.
    destruct (a !! i) as [ra|] eqn:Hra; [simpl|done].
    destruct (b !! i) as [rb|] eqn:Hrb; [simpl|done]. intros [= <-].
    rewrite length_zip_with.
    rewrite (Forall_lookup_1 _ _ _ _ Hca Hra), (Forall_lookup_1 _ _ _ _ Hcb Hrb).
    lia.
Qed.

Lemma shape_random_sample Nx Ny g : shape_is Nx Ny (random_sample Nx Ny g).1.
Proof.
  unfold random_sample. simpl. split; [by rewrite length_fmap, length_seq|].
  apply Forall_fmap, Forall_forall. intros i _. simpl.
  by rewrite length_fmap, length_seq.
Qed.

Lemma shape_neighbour_mask Nx Ny (g : list (list bool)) :
  shape_is Nx Ny g → shape_is Nx Ny (neighbour_mask g).
Proof.
  intros [Hl Hc]. unfold neighbour_mask. cbv zeta.
  assert (shape_is Nx Ny (zeros_like g)) as Hz by (by apply shape_fmap2).
  revert Hz. generalize (zeros_like g). intros m0 Hm0.
  repeat match goal with
         | |- shape_is _ _ (ior_slice ?sr ?sc ?m ?src) =>
             cut (shape_is Nx Ny m);
             [ intros [Hlm Hcm];
               destruct (ior_slice_shape sr sc m src Ny Hcm) as [Hl' Hc'];
               split; [congruence | done] | ]
         end.
  done.
Qed.

Create HintDb shape discriminated.
#[local] Hint Resolve shape_fmap2 shape_zip_with2 shape_random_sample
  shape_neighbour_mask : shape.

Lemma step_unfold Ny grid p f g :
  (step Ny grid p f g).1
  = assign_mask
      (and_mask
         (lt_mask (random_sample (length grid) Ny
                     (random_sample (length grid) Ny g).2).1 p)
         (eq_mask EMPTY grid)) TREE
      (assign_mask
         (and_mask (lt_mask (random_sample (length grid) Ny g).1 f)
            (eq_mask TREE grid)) BURN
         (assign_mask
            (and_mask (eq_mask TREE grid) (neighbour_mask (eq_mask BURN grid)))
            BURN
            (assign_mask (eq_mask BURN grid) EMPTY grid))).
Proof. reflexivity. Qed.

Lemma step_shape Ny grid p f g :
  has_cols Ny grid → shape_is (length grid) Ny (step Ny grid p f g).1.
Proof.
  intros Hc. assert (shape_is (length grid) Ny grid) as Hs by done.
  rewrite step_unfold. unfold assign_mask, and_mask, lt_mask, eq_mask.
  auto 20 with shape.
Qed.

Lemma cell_zip_with2_Some {A B C} (f : A → B → C) (a : list (list A))
    (b : list (list B)) i j x y :
  cell a i j = Some x → cell b i j = Some y →
  cell (zip_with (zip_with f) a b) i j = Some (f x y).
Proof. intros Ha Hb. by rewrite cell_zip_with2, Ha, Hb. Qed.

Lemma cell_eq_mask v grid i j c :
  cell grid i j = Some c → cell (eq_mask v grid) i j = Some (c =? v).
Proof. intros Hc. unfold eq_mask. by rewrite cell_fmap2, Hc. Qed.

Lemma cell_lt_mask_zero Nx Ny g i j :
  rng_ok g → (i < Nx)%nat → (j < Ny)%nat →
  cell (lt_mask (random_sample Nx Ny g).1 0) i j = Some false.
Proof.
  intros Hg Hi Hj. unfold lt_mask.
  rewrite cell_fmap2, cell_random_sample by done. simpl.
  by rewrite Qltb_zero by apply Hg.
Qed.

(** With [p = 0] and [f = 0], [step] gives a cell that holds one of the
    three codes the state that [update_block] gives it. *)
Lemma step_cell Ny grid g i j c :
  has_cols Ny grid → rng_ok g → cell grid i j = Some c → valid_cell c →
  cell (step Ny grid 0 0 g).1 i j
  = Some (next_state (padded_block Ny grid None None) Ny 0 0 i j 0).
Proof.
  intros Hc Hg Hcell Hv.
  destruct (cell_Some_lt grid Ny i j c Hc Hcell) as [Hi Hj].
  assert (Forall (λ r, length r = Ny) (eq_mask BURN grid)) as Hgc.
  { by apply (shape_fmap2 _ (length grid) Ny grid). }
  destruct (cell_neighbour_mask (eq_mask BURN grid) Ny i j Hgc) as [_ Hmask];
    [by (unfold eq_mask; rewrite length_fmap) | done |].
  rewrite <- (moore_burning_flags Ny grid i j Hc) in Hmask.
  pose proof (cell_eq_mask BURN grid i j c Hcell) as Hburn.
  pose proof (cell_eq_mask TREE grid i j c Hcell) as Htree.
  pose proof (cell_eq_mask EMPTY grid i j c Hcell) as Hempty.
  pose proof (cell_lt_mask_zero (length grid) Ny g i j Hg Hi Hj) as Hf.
  assert (rng_ok (random_sample (length grid) Ny g).2) as Hg1 by done.
  pose proof (cell_lt_mask_zero (length grid) Ny _ i j Hg1 Hi Hj) as Hp.
  pose proof (cell_zip_with2_Some (λ (b : bool) c0, if b then EMPTY else c0)
                _ _ i j _ _ Hburn Hcell) as Hnew1.
  pose proof (cell_zip_with2_Some andb _ _ i j _ _ Htree Hmask) as Hcatch.
  pose proof (cell_zip_with2_Some andb _ _ i j _ _ Hf Htree) as Hignite.
  pose proof (cell_zip_with2_Some andb _ _ i j _ _ Hp Hempty) as Hgrow.
  pose proof (cell_zip_with2_Some (λ (b : bool) c0, if b then BURN else c0)
                _ _ i j _ _ Hcatch Hnew1) as Hnew2.
  pose proof (cell_zip_with2_Some (λ (b : bool) c0, if b then BURN else c0)
                _ _ i j _ _ Hignite Hnew2) as Hnew3.
  pose proof (cell_zip_with2_Some (λ (b : bool) c0, if b then TREE else c0)
                _ _ i j _ _ Hgrow Hnew3) as Hnew4.
  rewrite step_unfold. unfold assign_mask, and_mask. rewrite Hnew4.
  f_equal. unfold next_state. rewrite at2_padded_block, Hcell by done. simpl.
  destruct Hv as [-> | [-> | ->]]; simpl; [done | | done].
  by destruct (moore_burning _ Ny i j).
Qed.

(** C7. With [p = 0] and [f = 0], on a grid whose cells hold the three
    codes, the sequential [step] and [update_block] with both ghost rows
    absent return the same grid. *)
Theorem step_is_update_block Ny grid (g_seq g_dist : rng) :
  has_cols Ny grid → valid_grid grid → rng_ok g_seq → rng_ok g_dist →
  ∃ g', update_block Ny grid None None 0 0 g_dist
        = Some ((step Ny grid 0 0 g_seq).1, g').
Proof.
  intros Hc Hv Hs Hd.
  destruct (update_block_quiet Ny grid None None g_dist Hc
              (ghost_ok_None Ny) (ghost_ok_None Ny) Hd) as [g' ->].
  exists g'. do 2 f_equal.
  destruct (step_shape Ny grid 0 0 g_seq Hc) as [Hlen Hcols].
  apply (grid_ext _ _ Ny); [apply quiet_step_has_cols | done | |].
  - by rewrite quiet_step_length.
  - intros i j Hi Hj. rewrite quiet_step_length in Hi.
    rewrite cell_quiet_step by done. simpl.
    destruct (cell_is_Some grid Ny i j Hc Hi Hj) as [c Hcell].
    symmetry. apply (step_cell Ny grid g_seq i j c); try done.
    unfold cell in Hcell. destruct (grid !! i) as [r|] eqn:Hr; [simpl in *|done].
    pose proof (Forall_lookup_1 _ _ _ _ Hv Hr) as Hvr. simpl in Hvr.
    by apply (Forall_lookup_1 _ _ _ _ Hvr Hcell).
Qed.

Lemma valid_grid_forest4 : valid_grid forest4.
Proof.
  unfold valid_grid, forest4.
  repeat (apply Forall_cons; split); try apply Forall_nil;
    unfold valid_cell, EMPTY, TREE, BURN; lia.
Qed.

Lemma step_is_update_block_witness :
  ∃ g', update_block 4 forest4 None None 0 0 half_rng
        = Some ((step 4 forest4 0 0 half_rng).1, g').
Proof.
  apply step_is_update_block.
  - apply has_cols_forest4.
  - apply valid_grid_forest4.
  - apply rng_ok_half.
  - apply rng_ok_half.
Defined.

(** The spec's 4x4 scenario under the sequential step. *)
Example step_4x4 :
  (step 4 forest4 0 0 half_rng).1
  = [[1;2;2;2]; [1;2;0;2]; [1;2;2;2]; [1;1;1;1]].
Proof. vm_compute. reflexivity. Qed.

(** Outside the three codes the two differ: [step] keeps a stray code,
    [update_block] treats it as [EMPTY]. *)
Example step_stray_code :
  (step 1 [[5]] 0 0 half_rng).1 = [[5]] ∧
  fst <$> update_block 1 [[5]] None None 0 0 half_rng = Some [[0]].
Proof. split; reflexivity. Qed.
(** ** Which draw each cell of update_block uses *)

#[local] Arguments update_cell : simpl never.
#[local] Arguments next_state : simpl never.
#[local] Arguments draws_at : simpl never.

Lemma update_cell_draw padded Ny p f i j new s k :
  update_cell padded Ny p f i j (new, Rng s k)
  = (set2 new i j (next_state padded Ny p f i j (s k)),
     Rng s (k + draws_at padded Ny i j)).
Proof.
  unfold update_cell, next_state, draws_at, random. simpl.
  repeat match goal with
         | |- context [if ?b then _ else _] => destruct b
         end; do 2 f_equal; lia.
Qed.

Lemma draws_in_row_S padded Ny i j :
  draws_in_row padded Ny i (S j)
  = (draws_in_row padded Ny i j + draws_at padded Ny i j)%nat.
Proof.
  unfold draws_in_row. rewrite seq_S, fmap_app, sum_list_with_app. simpl. lia.
Qed.

Lemma draws_before_S padded Ny i :
  draws_before padded Ny (S i) 0 = draws_before padded Ny i Ny.
Proof.
  unfold draws_before. rewrite seq_S, fmap_app, sum_list_with_app. simpl.
  unfold draws_in_row at 3. simpl. lia.
Qed.

Section exact_loops.
Context (padded : list (list Z)) (Ny : nat) (p f : Q) (s : nat → Q).

Lemma update_row_exact i new k m :
  has_cols Ny new → (i < length new)%nat → (m ≤ Ny)%nat →
  ∃ new',
    foldl (λ st j, update_cell padded Ny p f i j st) (new, Rng s k) (seq 0 m)
    = (new', Rng s (k + draws_in_row padded Ny i m)) ∧
    length new' = length new ∧ has_cols Ny new' ∧
    (∀ j, (j < m)%nat →
       cell new' i j
       = Some (next_state padded Ny p f i j
                 (s (k + draws_in_row padded Ny i j)%nat))) ∧
    (∀ i' j', i' ≠ i ∨ (m ≤ j')%nat → cell new' i' j' = cell new i' j').
Proof.
  intros Hc Hi. induction m as [|m IH]; intros Hm.
  { exists new. simpl. unfold draws_in_row. simpl. rewrite Nat.add_0_r.
    repeat split; try done. intros j Hj. lia. }
  destruct IH as (new1 & Hrun & Hlen & Hcols & Hdone & Hrest); [lia|].
  rewrite seq_S, foldl_app, Hrun. simpl. rewrite update_cell_draw.
  eexists. split.
  { f_equal. f_equal. rewrite draws_in_row_S. lia. }
  split; [by rewrite set2_length|]. split; [by apply set2_has_cols|]. split.
  - intros j Hj. destruct (decide (j = m)) as [->|Hne].
    + rewrite cell_set2_eq; [done|]. eapply cell_is_Some; [done | lia | lia].
    + rewrite cell_set2_ne by congruence. apply Hdone. lia.
  - intros i' j' Hij. rewrite cell_set2_ne.
    + apply Hrest. lia.
    + intros [= -> ->]. lia.
Qed.

Lemma update_rows_exact new k rows :
  has_cols Ny new → (rows ≤ length new)%nat →
  ∃ new',
    update_rows padded Ny p f rows (new, Rng s k)
    = (new', Rng s (k + draws_before padded Ny rows 0)) ∧
    length new' = length new ∧ has_cols Ny new' ∧
    (∀ i j, (i < rows)%nat → (j < Ny)%nat →
       cell new' i j
       = Some (next_state padded Ny p f i j
                 (s (k + draws_before padded Ny i j)%nat))) ∧
    (∀ i j, (rows ≤ i)%nat → cell new' i j = cell new i j).
Proof.
  intros Hc. unfold update_rows. induction rows as [|rows IH]; intros Hr.
  { exists new. simpl. unfold draws_before, draws_in_row. simpl.
    rewrite Nat.add_0_r. repeat split; try done. intros i j Hi. lia. }
  destruct IH as (new1 & Hrun & Hlen & Hcols & Hdone & Hrest); [lia|].
  rewrite seq_S, foldl_app, Hrun. simpl. unfold update_row.
  destruct (update_row_exact rows new1 (k + draws_before padded Ny rows 0) Ny
              Hcols ltac:(lia) ltac:(lia))
    as (new2 & -> & Hlen2 & Hcols2 & Hrow & Hother).
  exists new2. split.
  { f_equal. f_equal. rewrite draws_before_S. unfold draws_before.
    unfold draws_in_row at 2. simpl. lia. }
  split; [congruence|]. split; [done|]. split.
  - intros i j Hi Hj. destruct (decide (i = rows)) as [->|Hne].
    + rewrite Hrow by done. do 3 f_equal. unfold draws_before.
      unfold draws_in_row at 2. simpl. lia.
    + rewrite Hother by (by left). apply Hdone; lia.
  - intros i j Hi. rewrite Hother by (left; lia). apply Hrest. lia.
Qed.
End exact_loops.

(** X1. [update_block] is determined by its draws: it leaves the stream
    of the generator as it is, each cell [(i, j)] of its result is the
    [next_state] of that cell for the draw at the cursor advanced by the
    number of draws the cells before it in row-major order consume, and
    the cursor ends advanced by the draws of all cells, at most one per
    cell. *)
Theorem update_block_draws Ny block top bot p f g :
  has_cols Ny block → ghost_ok Ny top → ghost_ok Ny bot →
  let padded := padded_block Ny block top bot in
  ∃ new,
    update_block Ny block top bot p f g
    = Some (new, Rng (stream g)
                   (pos g + draws_before padded Ny (length block) 0)) ∧
    (∀ i j, (i < length block)%nat → (j < Ny)%nat →
       cell new i j
       = Some (next_state padded Ny p f i j
                 (stream g (pos g + draws_before padded Ny i j)%nat))) ∧
    (draws_before padded Ny (length block) 0 ≤ length block * Ny)%nat.
Proof.
  intros Hc Ht Hb padded. rewrite update_block_unfold by done. fold padded.
  destruct g as [s k]. simpl.
  destruct (update_rows_exact padded Ny p f s block k (length block) Hc
              ltac:(lia)) as (new & -> & _ & _ & Hcells & _).
  exists new. split; [done|]. split; [done|].
  assert (∀ i m, (draws_in_row padded Ny i m ≤ m)%nat) as Hrow.
  { intros i m. induction m as [|m IH]; [done|].
    rewrite draws_in_row_S. unfold draws_at.
    repeat match goal with
           | |- context [if ?b then _ else _] => destruct b
           end; lia. }
  generalize (length block). intros n. induction n as [|n IH]; [done|].
  rewrite draws_before_S. unfold draws_before in *.
  unfold draws_in_row at 2 in IH. simpl in IH.
  pose proof (Hrow n Ny). lia.
Qed.

Lemma update_block_draws_witness :
  let padded := padded_block 4 forest4 None None in
  ∃ new,
    update_block 4 forest4 None None (1 # 3) (3 # 4) half_rng
    = Some (new, Rng (stream half_rng)
                   (pos half_rng + draws_before padded 4 (length forest4) 0)) ∧
    (∀ i j, (i < length forest4)%nat → (j < 4)%nat →
       cell new i j
       = Some (next_state padded 4 (1 # 3) (3 # 4) i j
                 (stream half_rng (pos half_rng + draws_before padded 4 i j)%nat))) ∧
    (draws_before padded 4 (length forest4) 0 ≤ length forest4 * 4)%nat.
Proof.
  apply update_block_draws.
  - apply has_cols_forest4.
  - apply ghost_ok_None.
  - apply ghost_ok_None.
Defined.

(** ** Counting cells *)

Lemma Forall2_cells {A B} (R : A → B → Prop) Ny (a : list (list A))
    (b : list (list B)) :
  Forall (λ r, length r = Ny) a → Forall (λ r, length r = Ny) b →
  length a = length b →
  (∀ i j x y, cell a i j = Some x → cell b i j = Some y → R x y) →
  Forall2 (Forall2 R) a b.
Proof.
  intros Ha Hb Hl H. apply Forall2_same_length_lookup_2; [done|].
  intros i ra rb Hra Hrb. apply Forall2_same_length_lookup_2.
  - by rewrite (Forall_lookup_1 _ _ _ _ Ha Hra), (Forall_lookup_1 _ _ _ _ Hb Hrb).
  - intros j x y Hx Hy. apply (H i j); unfold cell.
    + by rewrite Hra.
    + by rewrite Hrb.
Qed.

(** A relation between the cells of two grids of one shape carries over
    to the numbers of cells with given codes. *)
Lemma count_code_pointwise Ny (a b : list (list Z)) (u v w : Z) :
  has_cols Ny a → has_cols Ny b → length a = length b →
  (∀ i j x y, cell a i j = Some x → cell b i j = Some y →
     (x = u ∨ x = v) ↔ y = w) →
  u ≠ v →
  (count_code u a + count_code v a = count_code w b)%nat.
Proof.
  intros Ha Hb Hl H Huv. unfold count_code, mask_sum, eq_mask.
  rewrite <- !list_fmap_compose.
  transitivity
    (sum_list ((λ r : list Z,
                  sum_list ((λ c, if (c =? u) || (c =? v) then 1%nat else 0%nat)
                              <$> r)) <$> a)).
  { clear -Huv. induction a as [|r a IH]; [done|]. rewrite !fmap_cons. simpl.
    rewrite <- IH. clear IH.
    assert (Nat.add
              (sum_list ((λ b : bool, if b then 1%nat else 0%nat)
                           <$> ((λ c, c =? u) <$> r)))
              (sum_list ((λ b : bool, if b then 1%nat else 0%nat)
                           <$> ((λ c, c =? v) <$> r)))
            = sum_list ((λ c, if (c =? u) || (c =? v) then 1%nat else 0%nat)
                          <$> r))
      as <-; [|lia].
    induction r as [|c r IHr]; [done|]. rewrite !fmap_cons. simpl.
    rewrite <- IHr.
    destruct (Z.eqb_spec c u), (Z.eqb_spec c v); simpl; lia. }
  pose proof (Forall2_cells (λ x y, (x = u ∨ x = v) ↔ y = w) Ny a b Ha Hb Hl H)
    as HF.
  clear -HF. induction HF as [|ra rb a b Hr _ IH]; [done|].
  rewrite !fmap_cons. simpl. rewrite IH. f_equal.
  induction Hr as [|x y ra rb Hxy _ IHr]; [done|].
  rewrite !fmap_cons. simpl. rewrite IHr. f_equal.
  destruct (Z.eqb_spec x u), (Z.eqb_spec x v), (Z.eqb_spec y w); simpl;
    try done; naive_solver.
Qed.

(** ** What update_block does to the forest as a whole *)

Lemma next_state_no_growth padded Ny f i j r :
  (0 <= r)%Q →
  (next_state padded Ny 0 f i j r = TREE ∨ next_state padded Ny 0 f i j r = BURN)
  ↔ at2 padded (Z.of_nat i + 1) (Z.of_nat j) = TREE.
Proof.
  intros Hr. unfold next_state. rewrite (Qltb_zero r Hr).
  destruct (Z.eqb_spec (at2 padded (Z.of_nat i + 1) (Z.of_nat j)) BURN) as [->|Hb].
  { split; [intros [?|?]; done | done]. }
  destruct (Z.eqb_spec (at2 padded (Z.of_nat i + 1) (Z.of_nat j)) TREE) as [->|Ht].
  { split; [done|]. intros _.
    destruct (moore_burning padded Ny i j); [by right|].
    destruct (Qltb r f); [by right | by left]. }
  split; [intros [?|?]; done | done].
Qed.

(** X2. Without growth ([p = 0]) and whatever [f] is, the trees and the
    burning cells of the block [update_block] returns are together as many
    as the trees of the input block: every tree stays or burns, nothing
    else becomes a tree or catches fire. *)
Theorem update_block_no_growth Ny block top bot f g :
  has_cols Ny block → ghost_ok Ny top → ghost_ok Ny bot → rng_ok g →
  ∃ new g',
    update_block Ny block top bot 0 f g = Some (new, g') ∧
    (count_code TREE new + count_code BURN new = count_code TREE block)%nat.
Proof.
  intros Hc Ht Hb Hg.
  destruct (update_block_cells Ny block top bot 0 f g Hc Ht Hb)
    as (new & g' & Hrun & Hlen & Hcols & _ & Hcells).
  exists new, g'. split; [done|].
  apply (count_code_pointwise Ny); [done | done | done | | done].
  intros i j x y Hx Hy.
  destruct (cell_Some_lt block Ny i j y Hc Hy) as [Hi Hj].
  destruct (Hcells i j Hi Hj) as [n Hn]. rewrite Hn in Hx.
  injection Hx as <-.
  rewrite next_state_no_growth by apply Hg.
  by rewrite at2_padded_block, Hy.
Qed.

Lemma update_block_no_growth_witness :
  ∃ new g',
    update_block 4 forest4 None (Some [2; 2; 2; 2]) 0 (1 # 3) half_rng
    = Some (new, g') ∧
    (count_code TREE new + count_code BURN new = count_code TREE forest4)%nat.
Proof.
  apply update_block_no_growth.
  - apply has_cols_forest4.
  - apply ghost_ok_None.
  - by apply ghost_ok_Some.
  - apply rng_ok_half.
Defined.

Lemma no_fire_cell (a : list (list Z)) i j c :
  no_fire a → cell a i j = Some c → c ≠ BURN.
Proof.
  intros Hnf Hcell. unfold cell in Hcell.
  destruct (a !! i) as [r|] eqn:Hr; [simpl in Hcell|done].
  pose proof (Forall_lookup_1 _ _ _ _ Hnf Hr) as Hrow. simpl in Hrow.
  by apply (Forall_lookup_1 _ _ _ _ Hrow Hcell).
Qed.

Lemma no_fire_not_burning padded Ny i j :
  no_fire padded → moore_burning padded Ny i j = false.
Proof.
  intros Hnf. destruct (moore_burning padded Ny i j) eqn:Hm; [|done].
  apply moore_burning_true in Hm as (di & dj & _ & _ & _ & _ & Hcell).
  by apply no_fire_cell in Hcell.
Qed.

(** X3. Without growth and lightning ([p = 0], [f = 0]), a block of
    [EMPTY] and [TREE] cells whose ghost rows hold no [BURN] cell is
    returned unchanged by [update_block]: a forest without fire stays as
    it is. *)
Theorem update_block_quiescent Ny block top bot g :
  has_cols Ny block → ghost_ok Ny top → ghost_ok Ny bot → rng_ok g →
  valid_grid block → no_fire (padded_block Ny block top bot) →
  ∃ g', update_block Ny block top bot 0 0 g = Some (block, g').
Proof.
  intros Hc Ht Hb Hg Hv Hnf.
  destruct (update_block_cells Ny block top bot 0 0 g Hc Ht Hb)
    as (new & g' & Hrun & Hlen & Hcols & _ & Hcells).
  exists g'. rewrite Hrun. do 2 f_equal.
  apply (grid_ext _ _ Ny); [done | done | done |].
  intros i j Hi Hj. rewrite Hlen in Hi.
  destruct (Hcells i j Hi Hj) as [n ->].
  destruct (cell_is_Some block Ny i j Hc Hi Hj) as [c Hcell].
  rewrite Hcell. f_equal. unfold next_state.
  rewrite at2_padded_block, Hcell by done. simpl.
  rewrite no_fire_not_burning by done. rewrite Qltb_zero by apply Hg.
  assert (valid_cell c) as Hvc.
  { unfold cell in Hcell. destruct (block !! i) as [r|] eqn:Hr; [simpl in *|done].
    pose proof (Forall_lookup_1 _ _ _ _ Hv Hr) as Hvr. simpl in Hvr.
    by apply (Forall_lookup_1 _ _ _ _ Hvr Hcell). }
  assert (c ≠ BURN) as Hcb.
  { rewrite <- (cell_padded_block Ny block top bot) in Hcell by done.
    by apply no_fire_cell in Hcell. }
  destruct Hvc as [-> | [-> | ->]]; done.
Qed.

Lemma update_block_quiescent_witness :
  ∃ g', update_block 3 [[1; 0; 1]; [0; 1; 1]] (Some [1; 1; 0]) None 0 0 half_rng
        = Some ([[1; 0; 1]; [0; 1; 1]], g').
Proof.
  apply update_block_quiescent.
  - repeat constructor.
  - by apply ghost_ok_Some.
  - apply ghost_ok_None.
  - apply rng_ok_half.
  - unfold valid_grid. repeat (apply Forall_cons; split); try apply Forall_nil;
      unfold valid_cell, EMPTY, TREE, BURN; lia.
  - unfold no_fire, padded_block. simpl.
    repeat (apply Forall_cons; split); try apply Forall_nil; done.
Defined.

Lemma Qltb_one r p : (r < 1)%Q → (1 <= p)%Q → Qltb r p = true.
Proof.
  unfold Qltb. intros Hr Hp. apply Z.ltb_lt.
  pose proof (Qlt_le_trans _ _ _ Hr Hp) as H. exact H.
Qed.

(** X4. With draws in [[0, 1)], a probability of 1 or more is certainty:
    with [f >= 1] every [TREE] cell is [BURN] in the block [update_block]
    returns, and with [p >= 1] so is every cell that is neither [TREE] nor
    [BURN] a [TREE]; an [EMPTY] cell is never set on fire, whatever [f]. *)
Theorem update_block_certain Ny block top bot p f g i j c :
  has_cols Ny block → ghost_ok Ny top → ghost_ok Ny bot → rng_ok g →
  cell block i j = Some c →
  ∃ new g',
    update_block Ny block top bot p f g = Some (new, g') ∧
    ((1 <= f)%Q → c = TREE → cell new i j = Some BURN) ∧
    ((1 <= p)%Q → c ≠ TREE → c ≠ BURN → cell new i j = Some TREE) ∧
    (c ≠ TREE → cell new i j ≠ Some BURN).
Proof.
  intros Hc Ht Hb Hg Hcell.
  destruct (cell_Some_lt block Ny i j c Hc Hcell) as [Hi Hj].
  destruct (update_block_cells Ny block top bot p f g Hc Ht Hb)
    as (new & g' & Hrun & _ & _ & _ & Hcells).
  exists new, g'. split; [done|].
  destruct (Hcells i j Hi Hj) as [n ->]. unfold next_state.
  rewrite at2_padded_block, Hcell by done. simpl.
  destruct (Hg n) as [_ Hlt]. split; [|split].
  - intros Hf ->. simpl. rewrite (Qltb_one _ f Hlt Hf).
    by destruct (moore_burning _ Ny i j).
  - intros Hp Hnt Hnb.
    destruct (Z.eqb_spec c BURN); [done|]. destruct (Z.eqb_spec c TREE); [done|].
    by rewrite (Qltb_one _ p Hlt Hp).
  - intros Hnt.
    destruct (Z.eqb_spec c BURN); [done|]. destruct (Z.eqb_spec c TREE); [done|].
    by destruct (Qltb _ p).
Qed.

Lemma update_block_certain_witness :
  ∃ new g',
    update_block 4 forest4 None None 1 1 half_rng = Some (new, g') ∧
    ((1 <= 1)%Q → 1 = TREE → cell new 3 0 = Some BURN) ∧
    ((1 <= 1)%Q → 1 ≠ TREE → 1 ≠ BURN → cell new 3 0 = Some TREE) ∧
    (1 ≠ TREE → cell new 3 0 ≠ Some BURN).
Proof.
  apply update_block_certain.
  - apply has_cols_forest4.
  - apply ghost_ok_None.
  - apply ghost_ok_None.
  - apply rng_ok_half.
  - reflexivity.
Defined.

(** ** The sequential step, cell by cell *)

Lemma cell_lt_mask Nx Ny g x i j :
  (i < Nx)%nat → (j < Ny)%nat →
  cell (lt_mask (random_sample Nx Ny g).1 x) i j
  = Some (Qltb (stream g (pos g + i * Ny + j)%nat) x).
Proof.
  intros Hi Hj. unfold lt_mask.
  by rewrite cell_fmap2, cell_random_sample by done.
Qed.

Lemma step_cell_value Ny grid p f g i j c :
  has_cols Ny grid → cell grid i j = Some c →
  cell (step Ny grid p f g).1 i j
  = Some (if Qltb (stream g (pos g + length grid * Ny + i * Ny + j)%nat) p
             && (c =? EMPTY) then TREE
          else if Qltb (stream g (pos g + i * Ny + j)%nat) f && (c =? TREE)
               then BURN
          else if (c =? TREE)
                  && moore_burning (padded_block Ny grid None None) Ny i j
               then BURN
          else if c =? BURN then EMPTY
          else c).
Proof.
  intros Hc Hcell.
  destruct (cell_Some_lt grid Ny i j c Hc Hcell) as [Hi Hj].
  assert (Forall (λ r, length r = Ny) (eq_mask BURN grid)) as Hgc.
  { by apply (shape_fmap2 _ (length grid) Ny grid). }
  destruct (cell_neighbour_mask (eq_mask BURN grid) Ny i j Hgc) as [_ Hmask];
    [by (unfold eq_mask; rewrite length_fmap) | done |].
  rewrite <- (moore_burning_flags Ny grid i j Hc) in Hmask.
  pose proof (cell_eq_mask BURN grid i j c Hcell) as Hburn.
  pose proof (cell_eq_mask TREE grid i j c Hcell) as Htree.
  pose proof (cell_eq_mask EMPTY grid i j c Hcell) as Hempty.
  pose proof (cell_lt_mask (length grid) Ny g f i j Hi Hj) as Hf.
  pose proof (cell_lt_mask (length grid) Ny
                (random_sample (length grid) Ny g).2 p i j Hi Hj) as Hp.
  pose proof (cell_zip_with2_Some (λ (b : bool) c0, if b then EMPTY else c0)
                _ _ i j _ _ Hburn Hcell) as Hnew1.
  pose proof (cell_zip_with2_Some andb _ _ i j _ _ Htree Hmask) as Hcatch.
  pose proof (cell_zip_with2_Some andb _ _ i j _ _ Hf Htree) as Hignite.
  pose proof (cell_zip_with2_Some andb _ _ i j _ _ Hp Hempty) as Hgrow.
  pose proof (cell_zip_with2_Some (λ (b : bool) c0, if b then BURN else c0)
                _ _ i j _ _ Hcatch Hnew1) as Hnew2.
  pose proof (cell_zip_with2_Some (λ (b : bool) c0, if b then BURN else c0)
                _ _ i j _ _ Hignite Hnew2) as Hnew3.
  pose proof (cell_zip_with2_Some (λ (b : bool) c0, if b then TREE else c0)
                _ _ i j _ _ Hgrow Hnew3) as Hnew4.
  rewrite step_unfold. unfold assign_mask, and_mask. rewrite Hnew4.
  simpl. done.
Qed.


(** X5. The sequential [step], cell by cell, for any [p] and [f]: the cell
    [(i, j)] uses draw number [i * Ny + j] of the first sample for
    lightning and of the second sample for growth; an [EMPTY] cell grows a
    tree when its growth draw is below [p]; a [TREE] cell burns when its
    lightning draw is below [f] or when one of its eight neighbours burns
    (the scan of [update_block] on the grid padded with [EMPTY] rows), and
    stays a tree otherwise; a [BURN] cell becomes [EMPTY]; any other code
    is left as it is. The generator ends [2 * Nx * Ny] draws further. *)
Theorem step_cell_rule Ny grid p f g i j c :
  has_cols Ny grid → cell grid i j = Some c →
  let Nx := length grid in
  let lightning := Qltb (stream g (pos g + i * Ny + j)%nat) f in
  let growth := Qltb (stream g (pos g + Nx * Ny + i * Ny + j)%nat) p in
  let fire := moore_burning (padded_block Ny grid None None) Ny i j in
  cell (step Ny grid p f g).1 i j
  = Some (if growth && (c =? EMPTY) then TREE
          else if lightning && (c =? TREE) then BURN
          else if (c =? TREE) && fire then BURN
          else if c =? BURN then EMPTY
          else c)
  ∧ (step Ny grid p f g).2 = Rng (stream g) (pos g + 2 * (Nx * Ny))%nat.
Proof.
  intros Hc Hcell Nx lightning growth fire. split.
  - unfold growth, lightning, fire, Nx. by apply step_cell_value.
  - unfold step, random_sample. simpl. f_equal. lia.
Qed.

Lemma step_cell_rule_witness :
  let Nx := length forest4 in
  let lightning := Qltb (stream half_rng (pos half_rng + 1 * 4 + 1)%nat) (3 # 4) in
  let growth :=
    Qltb (stream half_rng (pos half_rng + Nx * 4 + 1 * 4 + 1)%nat) (1 # 3) in
  let fire := moore_burning (padded_block 4 forest4 None None) 4 1 1 in
  cell (step 4 forest4 (1 # 3) (3 # 4) half_rng).1 1 1
  = Some (if growth && (1 =? EMPTY) then TREE
          else if lightning && (1 =? TREE) then BURN
          else if (1 =? TREE) && fire then BURN
          else if 1 =? BURN then EMPTY
          else 1)
  ∧ (step 4 forest4 (1 # 3) (3 # 4) half_rng).2
    = Rng (stream half_rng) (pos half_rng + 2 * (Nx * 4))%nat.
Proof.
  apply (step_cell_rule 4 forest4 (1 # 3) (3 # 4) half_rng 1 1 1).
  - apply has_cols_forest4.
  - reflexivity.
Defined.

Lemma step_stream Ny grid p f g : stream (step Ny grid p f g).2 = stream g.
Proof. reflexivity. Qed.

Lemma valid_grid_cell (a : list (list Z)) i j c :
  valid_grid a → cell a i j = Some c → valid_cell c.
Proof.
  intros Hv Hcell. unfold cell in Hcell.
  destruct (a !! i) as [r|] eqn:Hr; [simpl in Hcell|done].
  pose proof (Forall_lookup_1 _ _ _ _ Hv Hr) as Hvr. simpl in Hvr.
  by apply (Forall_lookup_1 _ _ _ _ Hvr Hcell).
Qed.

Lemma step_keeps_valid Ny grid p f g :
  has_cols Ny grid → valid_grid grid → valid_grid (step Ny grid p f g).1.
Proof.
  intros Hc Hv. pose proof (step_shape Ny grid p f g Hc) as [Hlen Hcols].
  apply (Forall_cells valid_cell Ny); [done|].
  intros i j Hi Hj. rewrite Hlen in Hi.
  destruct (cell_is_Some grid Ny i j Hc Hi Hj) as [c Hcell].
  rewrite (step_cell_value Ny grid p f g i j c Hc Hcell).
  eexists. split; [done|].
  pose proof (valid_grid_cell grid i j c Hv Hcell) as Hvc.
  unfold valid_cell in *.
  repeat match goal with
         | |- context [if ?b then _ else _] => destruct b
         end; auto.
Qed.

(** X6. On a grid whose cells hold the three codes, [step] returns a grid
    of the same shape whose cells hold the three codes, for any [p] and
    [f]. *)
Theorem step_valid Ny grid p f g :
  has_cols Ny grid → valid_grid grid →
  shape_is (length grid) Ny (step Ny grid p f g).1 ∧
  valid_grid (step Ny grid p f g).1.
Proof.
  intros Hc Hv. split.
  - by apply step_shape.
  - by apply step_keeps_valid.
Qed.

Lemma step_valid_witness :
  shape_is (length forest4) 4 (step 4 forest4 (1 # 3) (3 # 4) half_rng).1 ∧
  valid_grid (step 4 forest4 (1 # 3) (3 # 4) half_rng).1.
Proof.
  apply step_valid.
  - apply has_cols_forest4.
  - apply valid_grid_forest4.
Defined.

(** Without growth and lightning [step] is the quiet step. *)
Lemma step_quiet Ny grid g :
  has_cols Ny grid → valid_grid grid → rng_ok g →
  (step Ny grid 0 0 g).1
  = quiet_step (padded_block Ny grid None None) Ny 0 (length grid).
Proof.
  intros Hc Hv Hg.
  destruct (step_shape Ny grid 0 0 g Hc) as [Hlen Hcols].
  apply (grid_ext _ _ Ny); [done | apply quiet_step_has_cols | |].
  - by rewrite quiet_step_length.
  - intros i j Hi Hj. rewrite Hlen in Hi.
    rewrite cell_quiet_step by done. simpl.
    destruct (cell_is_Some grid Ny i j Hc Hi Hj) as [c Hcell].
    apply (step_cell Ny grid g i j c); try done.
    by apply (valid_grid_cell grid i j).
Qed.

Lemma quiet_step_valid padded Ny start rows :
  valid_grid (quiet_step padded Ny start rows).
Proof.
  unfold valid_grid, quiet_step. apply Forall_fmap, Forall_forall.
  intros i _. simpl. apply Forall_fmap, Forall_forall. intros j _. simpl.
  apply next_state_valid.
Qed.

(** Without growth, the trees and fires after [step] are the trees
    before it. *)
Lemma step_no_growth Ny grid f g :
  has_cols Ny grid → valid_grid grid → rng_ok g →
  (count_code TREE (step Ny grid 0 f g).1
   + count_code BURN (step Ny grid 0 f g).1 = count_code TREE grid)%nat.
Proof.
  intros Hc Hv Hg.
  destruct (step_shape Ny grid 0 f g Hc) as [Hlen Hcols].
  apply (count_code_pointwise Ny); [done | done | done | | done].
  intros i j x y Hx Hy.
  rewrite (step_cell_value Ny grid 0 f g i j y Hc Hy) in Hx.
  injection Hx as <-. rewrite Qltb_zero by apply Hg. simpl.
  pose proof (valid_grid_cell grid i j y Hv Hy) as [-> | [-> | ->]]; simpl.
  - rewrite andb_false_r. split; [intros [?|?]; done | done].
  - split; [done|]. intros _.
    destruct (Qltb _ f); [by right|].
    destruct (moore_burning _ Ny i j); [by right | by left].
  - rewrite andb_false_r. simpl. split; [intros [?|?]; done | done].
Qed.
(** ** The sequential run *)

Lemma run_loop_invariant Ny f nsteps grid g counts :
  has_cols Ny grid → valid_grid grid → rng_ok g →
  let st := run_loop Ny 0 f nsteps (grid, g, counts) in
  length st.2 = (length counts + nsteps)%nat ∧
  (sum_list st.2 + count_code TREE st.1.1
   = sum_list counts + count_code TREE grid)%nat ∧
  shape_is (length grid) Ny st.1.1 ∧ valid_grid st.1.1.
Proof.
  revert grid g counts. induction nsteps as [|n IH]; intros grid g counts Hc Hv Hg.
  { simpl. repeat split; try done; lia. }
  cbn [run_loop]. destruct (step Ny grid 0 f g) as [grid' g'] eqn:Hstep.
  assert (grid' = (step Ny grid 0 f g).1) as Hgrid by (by rewrite Hstep).
  assert (stream g' = stream g) as Hs.
  { replace g' with (step Ny grid 0 f g).2 by (by rewrite Hstep).
    apply step_stream. }
  destruct (step_shape Ny grid 0 f g Hc) as [Hlen Hcols].
  rewrite <- Hgrid in Hlen, Hcols.
  pose proof (step_keeps_valid Ny grid 0 f g Hc Hv) as Hv'.
  rewrite <- Hgrid in Hv'.
  pose proof (step_no_growth Ny grid f g Hc Hv Hg) as Hcount.
  rewrite <- Hgrid in Hcount.
  destruct (IH grid' g' (counts ++ [count_code BURN grid']) Hcols Hv')
    as (IHlen & IHsum & IHshape & IHvalid).
  { intros k. rewrite Hs. apply Hg. }
  cbv zeta. rewrite IHlen, IHsum, length_app, sum_list_with_app. simpl.
  rewrite Hlen in IHshape. repeat split; try done; try apply IHshape; lia.
Qed.

(** X7. The loop of the sequential [run] without growth ([p = 0]), on a
    grid whose cells hold the three codes: [burn_counts] gets one entry
    per step, and the burning cells counted over all steps are the trees
    lost between the first and the last grid, each tree burning at most
    once. *)
Theorem run_burn_counts Ny f nsteps grid g :
  has_cols Ny grid → valid_grid grid → rng_ok g →
  let st := run_loop Ny 0 f nsteps (grid, g, []) in
  length st.2 = nsteps ∧
  (sum_list st.2 + count_code TREE st.1.1 = count_code TREE grid)%nat.
Proof.
  intros Hc Hv Hg.
  destruct (run_loop_invariant Ny f nsteps grid g [] Hc Hv Hg)
    as (Hlen & Hsum & _).
  split; [exact Hlen | exact Hsum].
Qed.

Lemma run_burn_counts_witness :
  let st := run_loop 4 0 (1 # 3) 3 (forest4, half_rng, []) in
  length st.2 = 3%nat ∧
  (sum_list st.2 + count_code TREE st.1.1 = count_code TREE forest4)%nat.
Proof.
  apply run_burn_counts.
  - apply has_cols_forest4.
  - apply valid_grid_forest4.
  - apply rng_ok_half.
Defined.

(** The burn counts of the spec's 4x4 scenario: the fire crosses the forest
    in two steps and burns the fifteen trees. *)
Example run_loop_4x4 :
  (run_loop 4 0 0 4 (forest4, half_rng, [])).2 = [8; 7; 0; 0]%nat.
Proof. vm_compute. reflexivity. Qed.
(** ** The loop of the workers *)

Lemma update_block_Some_inv Ny block top bot p f g new g' :
  update_block Ny block top bot p f g = Some (new, g') → has_cols Ny block →
  ghost_ok Ny top ∧ ghost_ok Ny bot ∧
  length new = length block ∧ has_cols Ny new ∧ stream g' = stream g.
Proof.
  intros Hrun Hc.
  assert (ghost_ok Ny top ∧ ghost_ok Ny bot) as [Ht Hb].
  { unfold update_block, reshape_row in Hrun. split.
    - destruct top as [t|]; [|apply ghost_ok_None].
      destruct (decide (length t = Ny)); [by apply ghost_ok_Some | done].
    - destruct bot as [b|]; [|apply ghost_ok_None].
      destruct (decide (length b = Ny)); [by apply ghost_ok_Some|].
      by destruct top as [t|]; [destruct (decide (length t = Ny))|]. }
  destruct (update_block_cells Ny block top bot p f g Hc Ht Hb)
    as (new0 & g0 & Hrun0 & Hlen & Hcols & Hs & _).
  rewrite Hrun in Hrun0. injection Hrun0 as <- <-. done.
Qed.

Lemma worker_step_Some_inv Ny p f ws k grid g new g' :
  worker_step Ny p f ws k (grid, g) = Some (new, g') → has_cols Ny grid →
  grid ≠ [] ∧ length new = length grid ∧ has_cols Ny new ∧
  stream g' = stream g.
Proof.
  unfold worker_step. intros Hrun Hc.
  destruct (top_row grid) as [r0|] eqn:Htop; [simpl in Hrun|done].
  destruct (bottom_row grid) as [r1|]; [simpl in Hrun|done].
  destruct (if decide (0 < k)%nat then _ else _) as [tg|]; [simpl in Hrun|done].
  destruct (if decide (k < length ws - 1)%nat then _ else _) as [bg|];
    [simpl in Hrun|done].
  destruct (update_block_Some_inv _ _ _ _ _ _ _ _ _ Hrun Hc) as (_ & _ & ? & ? & ?).
  split; [|done]. intros ->. done.
Qed.

Lemma distributed_step_lookup Ny p f ws outs :
  distributed_step Ny p f ws = Some outs →
  length outs = length ws ∧
  ∀ k w out, ws !! k = Some w → outs !! k = Some out →
    worker_step Ny p f ws k w = Some out.
Proof.
  unfold distributed_step. intros Hrun. apply mapM_Some_1 in Hrun.
  split.
  - apply Forall2_length in Hrun. by rewrite length_imap in Hrun.
  - intros k w out Hw Hout.
    apply (Forall2_lookup_lr _ _ _ k (worker_step Ny p f ws k w) out) in Hrun;
      [done | | done].
    by rewrite list_lookup_imap, Hw.
Qed.

Lemma assign_full_same Ny (a b : list (list Z)) :
  has_cols Ny a → has_cols Ny b → length a = length b → assign_full a b = b.
Proof.
  intros Ha Hb Hl. unfold assign_full.
  destruct (shape_zip_with2 (λ _ v : Z, v) (length a) Ny a b) as [Hlz Hcz];
    [done | by split |].
  apply (grid_ext _ _ Ny); [done | done | congruence |].
  intros i j Hi Hj. rewrite Hlz in Hi. rewrite cell_zip_with2.
  destruct (cell_is_Some a Ny i j Ha Hi Hj) as [x ->]. simpl.
  destruct (cell_is_Some b Ny i j Hb ltac:(lia) Hj) as [y ->]. done.
Qed.

(** The copy [grid[:, :] = new_grid] stores the block [update_block]
    returned, whose shape is that of [grid]. *)
Lemma loop_iteration_outs Ny p f ws outs :
  Forall (λ w, has_cols Ny w.1) ws →
  distributed_step Ny p f ws = Some outs →
  loop_iteration Ny p f ws = Some outs.
Proof.
  intros Hc Hrun. unfold loop_iteration. rewrite Hrun. simpl. f_equal.
  destruct (distributed_step_lookup Ny p f ws outs Hrun) as [Hlen Hlook].
  apply list_eq. intros k. rewrite lookup_zip_with.
  destruct (ws !! k) as [[grid g]|] eqn:Hw; simpl.
  - destruct (outs !! k) as [[new g']|] eqn:Hout; [simpl|done].
    pose proof (Forall_lookup_1 _ _ _ _ Hc Hw) as Hcg. simpl in Hcg.
    destruct (worker_step_Some_inv _ _ _ _ _ _ _ _ _ (Hlook _ _ _ Hw Hout) Hcg)
      as (_ & Hl & Hcn & _).
    by rewrite (assign_full_same Ny).
  - symmetry. apply lookup_ge_None_2. apply lookup_ge_None_1 in Hw. lia.
Qed.



Lemma loop_iteration_shape Ny p f ws ws' :
  Forall (λ w, has_cols Ny w.1) ws →
  loop_iteration Ny p f ws = Some ws' →
  Forall2 (same_shape Ny) ws ws'.
Proof.
  intros Hc Hrun.
  destruct (distributed_step Ny p f ws) as [outs|] eqn:Hstep;
    [|by unfold loop_iteration in Hrun; rewrite Hstep in Hrun].
  rewrite (loop_iteration_outs Ny p f ws outs Hc Hstep) in Hrun.
  injection Hrun as <-.
  destruct (distributed_step_lookup Ny p f ws outs Hstep) as [Hlen Hlook].
  apply Forall2_same_length_lookup_2; [done|].
  intros k [grid g] [new g'] Hw Hout.
  pose proof (Forall_lookup_1 _ _ _ _ Hc Hw) as Hcg. simpl in Hcg.
  destruct (worker_step_Some_inv _ _ _ _ _ _ _ _ _ (Hlook _ _ _ Hw Hout) Hcg)
    as (_ & ? & ? & ?).
  by split.
Qed.

Lemma same_shape_keeps Ny ws ws' :
  Forall2 (same_shape Ny) ws ws' →
  Forall (λ w, has_cols Ny w.1) ws' ∧
  (Forall (λ w, w.1 ≠ []) ws → Forall (λ w, w.1 ≠ []) ws') ∧
  (Forall (λ w, rng_ok w.2) ws → Forall (λ w, rng_ok w.2) ws').
Proof.
  induction 1 as [|w w' ws ws' (Hl & Hc & Hs) _ (IH1 & IH2 & IH3)].
  { repeat split; constructor. }
  split; [by constructor|]. split.
  - intros [Hne Hrest]%Forall_cons. constructor; [|by apply IH2].
    intros Hnil. rewrite Hnil in Hl. by destruct w.1.
  - intros [Hok Hrest]%Forall_cons. constructor; [|by apply IH3].
    intros n. rewrite Hs. apply Hok.
Qed.





(** One iteration of all workers without growth and lightning is the
    quiet step of the whole grid. *)
Lemma loop_iteration_quiet Ny ws :
  Forall (worker_ok Ny) ws →
  ∃ ws', loop_iteration Ny 0 0 ws = Some ws' ∧ Forall (worker_ok Ny) ws' ∧
    concat ws'.*1
    = quiet_step (padded_block Ny (concat ws.*1) None None) Ny 0
        (length (concat ws.*1)).
Proof.
  intros Hok.
  set (PG := padded_block Ny (concat ws.*1) None None).
  destruct (mapM_imap_fst (worker_step Ny 0 0 ws)
              (λ k w, quiet_step PG Ny (0 + length (concat (take k ws).*1))
                        (length w.1)) ws) as (outs & Hstep & Hfst).
  { intros k w Hk.
    pose proof (take_drop_middle ws k w Hk) as Hsplit.
    pose proof Hok as Hok'. rewrite <- Hsplit in Hok'.
    destruct (worker_step_quiet Ny _ _ _ Hok') as [g' Hw].
    rewrite Hsplit in Hw. rewrite length_take_le in Hw
      by (apply Nat.lt_le_incl; by eapply lookup_lt_Some).
    exists g'. by rewrite Hw. }
  assert (Forall (λ w, has_cols Ny w.1) ws) as Hc.
  { eapply Forall_impl; [exact Hok|]. by intros w (? & _). }
  pose proof (loop_iteration_outs Ny 0 0 ws outs Hc Hstep) as Hit.
  exists outs. split; [done|]. split.
  - pose proof (loop_iteration_shape Ny 0 0 ws outs Hc Hit) as Hsh.
    destruct (same_shape_keeps Ny ws outs Hsh) as (Hc1 & Hne1 & Hg1).
    assert (Forall (λ w, w.1 ≠ []) outs) as Hne.
    { apply Hne1. eapply Forall_impl; [exact Hok|]. by intros w (_ & ? & _). }
    assert (Forall (λ w, rng_ok w.2) outs) as Hg.
    { apply Hg1. eapply Forall_impl; [exact Hok|]. by intros w (_ & _ & ?). }
    apply Forall_lookup. intros k w Hw.
    split; [exact (Forall_lookup_1 _ _ _ _ Hc1 Hw)|].
    split; [exact (Forall_lookup_1 _ _ _ _ Hne Hw)|].
    exact (Forall_lookup_1 _ _ _ _ Hg Hw).
  - rewrite Hfst. apply concat_quiet_blocks.
Qed.

(** X9. Without growth and lightning ([p = 0], [f = 0]), on a grid whose
    cells hold the three codes and for any number of steps, the loop of the
    workers on any split of the grid into non-empty row blocks and the loop
    of the sequential [run] on the whole grid end with the same grid: the
    blocks of the workers, put together in rank order, are the grid of the
    sequential run. *)
Theorem loops_agree Ny nsteps ws g counts :
  Forall (worker_ok Ny) ws → valid_grid (concat ws.*1) → rng_ok g →
  ∃ ws',
    worker_loop Ny 0 0 nsteps ws = Some ws' ∧
    concat ws'.*1 = (run_loop Ny 0 0 nsteps (concat ws.*1, g, counts)).1.1.
Proof.
  revert ws g counts. induction nsteps as [|n IH]; intros ws g counts Hok Hv Hg.
  { by exists ws. }
  assert (has_cols Ny (concat ws.*1)) as Hc.
  { apply Forall_concat, Forall_fmap. eapply Forall_impl; [exact Hok|].
    by intros w (? & _). }
  destruct (loop_iteration_quiet Ny ws Hok) as (ws1 & Hit & Hok1 & Hcat).
  cbn [worker_loop run_loop].
  destruct (step Ny (concat ws.*1) 0 0 g) as [grid1 g1] eqn:Hstep.
  rewrite Hit. simpl.
  assert (grid1 = concat ws1.*1) as ->.
  { rewrite Hcat, <- (step_quiet Ny (concat ws.*1) g Hc Hv Hg). by rewrite Hstep. }
  apply IH; [done | |].
  - rewrite Hcat. apply quiet_step_valid.
  - intros k. replace g1 with (step Ny (concat ws.*1) 0 0 g).2
      by (by rewrite Hstep).
    rewrite step_stream. apply Hg.
Qed.

Lemma loops_agree_witness :
  ∃ ws',
    worker_loop 4 0 0 3 workers4 = Some ws' ∧
    concat ws'.*1
    = (run_loop 4 0 0 3 (concat workers4.*1, half_rng, [])).1.1.
Proof.
  apply loops_agree.
  - apply workers4_ok.
  - apply valid_grid_forest4.
  - apply rng_ok_half.
Defined.
(** ** Fire needs lightning or fire *)

Lemma no_fire_padded Ny block top bot :
  no_fire block →
  (∀ r, top = Some r → Forall (λ c, c ≠ BURN) r) →
  (∀ r, bot = Some r → Forall (λ c, c ≠ BURN) r) →
  no_fire (padded_block Ny block top bot).
Proof.
  intros Hb Ht Hbo. unfold no_fire, padded_block.
  assert (Forall (λ c, c ≠ BURN) (replicate Ny EMPTY)) as He.
  { apply Forall_replicate. done. }
  apply Forall_cons. split; [destruct top; [by apply Ht | done]|].
  apply Forall_app. split; [done|].
  apply Forall_singleton. destruct bot; [by apply Hbo | done].
Qed.

Lemma next_state_no_ignition padded Ny p i j r :
  no_fire padded → (0 <= r)%Q → next_state padded Ny p 0 i j r ≠ BURN.
Proof.
  intros Hnf Hr. unfold next_state.
  rewrite (no_fire_not_burning padded Ny i j Hnf), (Qltb_zero r Hr).
  repeat match goal with
         | |- context [if ?b then _ else _] => destruct b
         end; done.
Qed.

(** X10. Without lightning ([f = 0]) fire does not start: if neither the
    block nor its ghost rows hold a [BURN] cell, no cell of the block
    [update_block] returns holds [BURN], whatever [p] is. *)
Theorem update_block_no_ignition Ny block top bot p g :
  has_cols Ny block → ghost_ok Ny top → ghost_ok Ny bot → rng_ok g →
  no_fire (padded_block Ny block top bot) →
  ∃ new g', update_block Ny block top bot p 0 g = Some (new, g') ∧ no_fire new.
Proof.
  intros Hc Ht Hb Hg Hnf.
  destruct (update_block_cells Ny block top bot p 0 g Hc Ht Hb)
    as (new & g' & Hrun & Hlen & Hcols & _ & Hcells).
  exists new, g'. split; [done|].
  apply (Forall_cells (λ c, c ≠ BURN) Ny); [done|].
  intros i j Hi Hj. rewrite Hlen in Hi.
  destruct (Hcells i j Hi Hj) as [n ->]. eexists. split; [done|].
  apply next_state_no_ignition; [done | apply Hg].
Qed.

Lemma update_block_no_ignition_witness :
  ∃ new g',
    update_block 3 [[1; 0; 1]; [0; 1; 1]] (Some [1; 1; 0]) None (1 # 3) 0 half_rng
    = Some (new, g') ∧ no_fire new.
Proof.
  apply update_block_no_ignition.
  - repeat constructor.
  - by apply ghost_ok_Some.
  - apply ghost_ok_None.
  - apply rng_ok_half.
  - unfold no_fire, padded_block. simpl.
    repeat (apply Forall_cons; split); try apply Forall_nil; done.
Defined.

(** ** The initial forest *)

Lemma cell_init_grid Nx Ny d0 g i j :
  (i < Nx)%nat → (j < Ny)%nat →
  cell (init_grid Nx Ny d0 g).1 i j
  = Some (if Qltb (stream g (pos g + i * Ny + j)%nat) d0 then TREE else EMPTY).
Proof.
  intros Hi Hj. unfold init_grid.
  change (random_sample Nx Ny g)
    with ((random_sample Nx Ny g).1, (random_sample Nx Ny g).2).
  cbn [fst]. by rewrite cell_fmap2, cell_lt_mask.
Qed.

Lemma init_grid_shape Nx Ny d0 g : shape_is Nx Ny (init_grid Nx Ny d0 g).1.
Proof.
  unfold init_grid.
  change (random_sample Nx Ny g)
    with ((random_sample Nx Ny g).1, (random_sample Nx Ny g).2).
  cbn [fst]. unfold lt_mask. auto with shape.
Qed.

Lemma init_grid_no_fire Nx Ny d0 g :
  valid_grid (init_grid Nx Ny d0 g).1 ∧ no_fire (init_grid Nx Ny d0 g).1.
Proof.
  destruct (init_grid_shape Nx Ny d0 g) as [Hl Hc].
  split; apply (Forall_cells _ Ny); try done; intros i j Hi Hj;
    rewrite Hl in Hi; rewrite cell_init_grid by done;
    eexists; (split; [done|]); destruct (Qltb _ d0); try done.
  - by right; left.
  - by left.
Qed.

(** X11. The initial forest of [run] and of a worker has the shape asked
    for and holds only [EMPTY] and [TREE] cells, a tree exactly where the
    draw of the cell is below the density [d0]; with draws in [[0, 1)], a
    density of 0 or less gives an empty grid and a density of 1 or more a
    grid full of trees. *)
Theorem init_grid_spec Nx Ny d0 g :
  rng_ok g →
  let grid := (init_grid Nx Ny d0 g).1 in
  shape_is Nx Ny grid ∧ valid_grid grid ∧ no_fire grid ∧
  (∀ i j, (i < Nx)%nat → (j < Ny)%nat →
     cell grid i j
     = Some (if Qltb (stream g (pos g + i * Ny + j)%nat) d0
             then TREE else EMPTY)) ∧
  ((d0 <= 0)%Q → grid = replicate Nx (replicate Ny EMPTY)) ∧
  ((1 <= d0)%Q → grid = replicate Nx (replicate Ny TREE)).
Proof.
  intros Hg grid.
  pose proof (init_grid_shape Nx Ny d0 g) as Hs.
  destruct (init_grid_no_fire Nx Ny d0 g) as [Hv Hnf].
  split; [done|]. split; [done|]. split; [done|].
  split; [intros i j Hi Hj; by apply cell_init_grid|].
  destruct Hs as [Hl Hc].
  assert (∀ v, (∀ n, Qltb (stream g n) d0 = true → v = TREE) →
               (∀ n, Qltb (stream g n) d0 = false → v = EMPTY) →
               grid = replicate Nx (replicate Ny v)) as Hall.
  { intros v Ht He. apply (grid_ext _ _ Ny); [done | | |].
    - apply Forall_replicate. by rewrite length_replicate.
    - by rewrite length_replicate.
    - intros i j Hi Hj. fold grid in Hl. rewrite Hl in Hi.
      unfold grid. rewrite cell_init_grid by done. unfold cell.
      rewrite lookup_replicate_2 by done. simpl.
      rewrite lookup_replicate_2 by done. f_equal.
      destruct (Qltb _ d0) eqn:Hd; symmetry; [by eapply Ht | by eapply He]. }
  split.
  - intros Hd. apply Hall; [|done]. intros n Hlt. exfalso.
    unfold Qltb in Hlt. apply Z.ltb_lt in Hlt.
    destruct (Hg n) as [H0 _].
    pose proof (Qle_trans _ _ _ Hd H0) as Hle.
    unfold Qle in Hle. lia.
  - intros Hd. apply Hall; [done|]. intros n Hlt. exfalso.
    destruct (Hg n) as [_ H1]. rewrite (Qltb_one _ d0 H1 Hd) in Hlt. done.
Qed.

Lemma init_grid_spec_witness :
  let grid := (init_grid 2 3 (3 # 5) half_rng).1 in
  shape_is 2 3 grid ∧ valid_grid grid ∧ no_fire grid ∧
  (∀ i j, (i < 2)%nat → (j < 3)%nat →
     cell grid i j
     = Some (if Qltb (stream half_rng (pos half_rng + i * 3 + j)%nat) (3 # 5)
             then TREE else EMPTY)) ∧
  (((3 # 5) <= 0)%Q → grid = replicate 2 (replicate 3 EMPTY)) ∧
  ((1 <= (3 # 5))%Q → grid = replicate 2 (replicate 3 TREE)).
Proof. apply init_grid_spec. apply rng_ok_half. Defined.

Lemma count_code_no_fire (grid : list (list Z)) :
  no_fire grid → count_code BURN grid = 0%nat.
Proof.
  unfold count_code, mask_sum, eq_mask. rewrite <- list_fmap_compose.
  induction 1 as [|r grid Hr _ IH]; [done|].
  rewrite fmap_cons. simpl. rewrite IH, Nat.add_0_r. clear IH.
  induction Hr as [|c r Hc _ IHr]; [done|].
  rewrite !fmap_cons. simpl. rewrite IHr.
  by destruct (Z.eqb_spec c BURN).
Qed.

Lemma step_no_ignition Ny grid p g :
  has_cols Ny grid → no_fire grid → rng_ok g →
  no_fire (step Ny grid p 0 g).1.
Proof.
  intros Hc Hnf Hg. destruct (step_shape Ny grid p 0 g Hc) as [Hlen Hcols].
  apply (Forall_cells (λ c, c ≠ BURN) Ny); [done|].
  intros i j Hi Hj. rewrite Hlen in Hi.
  destruct (cell_is_Some grid Ny i j Hc Hi Hj) as [c Hcell].
  rewrite (step_cell_value Ny grid p 0 g i j c Hc Hcell).
  eexists. split; [done|].
  rewrite (Qltb_zero (stream g (pos g + i * Ny + j)%nat)) by apply Hg.
  rewrite no_fire_not_burning by (by apply no_fire_padded).
  pose proof (no_fire_cell grid i j c Hnf Hcell) as Hcb.
  rewrite andb_false_r. simpl.
  destruct (_ && _); [done|]. by destruct (Z.eqb_spec c BURN).
Qed.

(** X12. The loop of the sequential [run] without lightning ([f = 0]), on
    a grid without burning cells such as the initial forest: every entry
    of [burn_counts] is 0 and the last grid holds no burning cell, for any
    [p]. *)
Theorem run_never_ignites Ny p nsteps grid g :
  has_cols Ny grid → no_fire grid → rng_ok g →
  let st := run_loop Ny p 0 nsteps (grid, g, []) in
  st.2 = replicate nsteps 0%nat ∧ no_fire st.1.1.
Proof.
  intros Hc Hnf Hg.
  assert (∀ n grid g counts,
            has_cols Ny grid → no_fire grid → rng_ok g →
            let st := run_loop Ny p 0 n (grid, g, counts) in
            st.2 = counts ++ replicate n 0%nat ∧ no_fire st.1.1) as Hgen.
  { clear. intros n. induction n as [|n IH]; intros grid g counts Hc Hnf Hg.
    { simpl. by rewrite app_nil_r. }
    cbn [run_loop]. destruct (step Ny grid p 0 g) as [grid' g'] eqn:Hstep.
    assert (grid' = (step Ny grid p 0 g).1) as Hgrid by (by rewrite Hstep).
    destruct (step_shape Ny grid p 0 g Hc) as [_ Hcols].
    pose proof (step_no_ignition Ny grid p g Hc Hnf Hg) as Hnf'.
    rewrite <- Hgrid in Hcols, Hnf'.
    destruct (IH grid' g' (counts ++ [count_code BURN grid']) Hcols Hnf')
      as [IHc IHnf].
    { intros k. replace g' with (step Ny grid p 0 g).2 by (by rewrite Hstep).
      rewrite step_stream. apply Hg. }
    cbv zeta. split; [|exact IHnf].
    rewrite IHc, count_code_no_fire by done.
    by rewrite <- app_assoc. }
  apply (Hgen nsteps grid g []); done.
Qed.

Lemma run_never_ignites_witness :
  let st := run_loop 3 (1 # 3) 0 4 ([[1; 0; 1]; [0; 1; 1]], half_rng, []) in
  st.2 = replicate 4 0%nat ∧ no_fire st.1.1.
Proof.
  apply run_never_ignites.
  - repeat constructor.
  - unfold no_fire. repeat (apply Forall_cons; split); try apply Forall_nil; done.
  - apply rng_ok_half.
Defined.




(** ** The block a worker starts from *)



(** X15. With more workers than rows ([0 <= Nx < num_procs]) nothing is
    refused at start-up: every rank but the highest gets a block without
    rows, draws nothing, and then fails in the first iteration of its loop
    whatever its neighbours hold ([grid[0, :]] on an empty block). *)
Theorem too_many_workers (rank n Nx : Z) Ny d0 g p f ws k :
  0 ≤ Nx < n → 0 ≤ rank < n - 1 →
  init_block rank n Nx Ny d0 g = inr ([], g) ∧
  worker_step Ny p f ws k ([], g) = None.
Proof.
  intros HNx Hrank. split; [|done].
  unfold init_block, worker_rows.
  destruct (Z.eqb_spec n 0); [lia|].
  rewrite (Z.div_small Nx n) by lia.
  destruct (Z.eqb_spec rank (n - 1)); [lia|].
  replace ((rank + 1) * 0 - rank * 0) with 0 by lia. simpl.
  unfold init_grid, random_sample. simpl. destruct g as [s k0].
  simpl. do 3 f_equal. lia.
Qed.

Lemma too_many_workers_witness :
  init_block 1 4 2 5 (3 # 5) half_rng = inr ([], half_rng) ∧
  worker_step 5 (1 # 3) (3 # 4) workers4 1 ([], half_rng) = None.
Proof. apply too_many_workers; lia. Defined.
(** ** Rows on the wire *)

Lemma recv_exact_loop_spec n fuel (sock : list (list Z)) (data : list Z) :
  Forall (λ seg, seg ≠ []) sock → (n - length data ≤ fuel)%nat →
  ((n ≤ length data + length (concat sock))%nat →
   ∃ rest,
     recv_exact_loop fuel sock n data
     = Some (Received (data ++ take (n - length data) (concat sock)) rest) ∧
     concat rest = drop (n - length data) (concat sock) ∧
     Forall (λ seg, seg ≠ []) rest) ∧
  ((length data + length (concat sock) < n)%nat →
   recv_exact_loop fuel sock n data = Some ConnectionError).
Proof.
  revert sock data. induction fuel as [|fuel IH]; intros sock data Hne Hfuel.
  { simpl. rewrite decide_False by lia.
    replace (n - length data)%nat with 0%nat by lia.
    split; [|lia]. intros _. exists sock. by rewrite take_0, drop_0, app_nil_r. }
  cbn [recv_exact_loop]. destruct (decide (length data < n)%nat) as [Hlt|Hge].
  2:{ replace (n - length data)%nat with 0%nat by lia.
      split; [|lia]. intros _. exists sock.
      by rewrite take_0, drop_0, app_nil_r. }
  destruct sock as [|seg rest].
  { simpl. split; [lia | done]. }
  apply Forall_cons in Hne as [Hseg Hrest].
  assert (0 < length seg)%nat as Hpos by (destruct seg; [done | simpl; lia]).
  cbn [recv concat]. rewrite length_app.
  rewrite decide_False.
  2:{ intros Hnil. apply (f_equal length) in Hnil.
      rewrite length_take in Hnil. simpl in Hnil. lia. }
  destruct (decide (n - length data < length seg)%nat) as [Hpart|Hwhole].
  - destruct (IH (drop (n - length data) seg :: rest)
                (data ++ take (n - length data) seg)) as [IHok _].
    { apply Forall_cons. split; [|done]. intros Hnil.
      apply (f_equal length) in Hnil. rewrite length_drop in Hnil.
      simpl in Hnil. lia. }
    { rewrite length_app, length_take. lia. }
    split; [|lia]. intros _.
    destruct IHok as (rest' & -> & Hcat & Hne').
    { rewrite length_app, length_take. lia. }
    exists rest'. rewrite length_app, length_take in *.
    replace (n - (length data + (n - length data) `min` length seg))%nat
      with 0%nat in * by lia.
    rewrite take_0, app_nil_r in *. rewrite drop_0 in Hcat.
    rewrite take_app_le, drop_app_le by lia. done.
  - rewrite take_ge by lia.
    destruct (IH rest (data ++ seg)) as [IHok IHclosed]; [done | |].
    { rewrite length_app. lia. }
    rewrite length_app in IHok, IHclosed. split.
    + intros Hn. destruct IHok as (rest' & -> & Hcat & Hne'); [lia|].
      exists rest'. split; [|split; [|done]].
      * do 2 f_equal. rewrite <- app_assoc. f_equal.
        rewrite take_app_ge by lia. f_equal. f_equal. lia.
      * rewrite Hcat, drop_app_ge by lia. f_equal. lia.
    + intros Hn. apply IHclosed. lia.
Qed.

(** X16. [recv_exact(sock, n)] returns the first [n] bytes of the data on
    their way, however they are cut into segments, and leaves the bytes
    behind them on the socket; when fewer than [n] bytes arrive before the
    peer closes, it raises [ConnectionError].  Its loop ends within [n]
    iterations. *)
Theorem recv_exact_spec (sock : list (list Z)) (n : nat) :
  Forall (λ seg, seg ≠ []) sock →
  ((n ≤ length (concat sock))%nat →
   ∃ rest,
     recv_exact sock n = Some (Received (take n (concat sock)) rest) ∧
     concat rest = drop n (concat sock) ∧ Forall (λ seg, seg ≠ []) rest) ∧
  ((length (concat sock) < n)%nat → recv_exact sock n = Some ConnectionError).
Proof.
  intros Hne. unfold recv_exact.
  destruct (recv_exact_loop_spec n n sock [] Hne) as [Hok Hclosed].
  { simpl. lia. }
  simpl in Hok, Hclosed. rewrite Nat.sub_0_r in Hok. split.
  - intros Hn. by apply Hok.
  - intros Hn. by apply Hclosed.
Qed.

Lemma recv_exact_spec_witness :
  ((4 ≤ length (concat segments3))%nat →
   ∃ rest,
     recv_exact segments3 4 = Some (Received (take 4 (concat segments3)) rest) ∧
     concat rest = drop 4 (concat segments3) ∧
     Forall (λ seg, seg ≠ []) rest) ∧
  ((length (concat segments3) < 4)%nat →
   recv_exact segments3 4 = Some ConnectionError).
Proof.
  apply recv_exact_spec. repeat constructor; discriminate.
Defined.

(** A row read in three receives, and a connection closed too early. *)
Example recv_exact_segments :
  recv_exact [[1; 2]; [3]; [4; 5; 6]] 4 = Some (Received [1; 2; 3; 4] [[5; 6]]) ∧
  recv_exact [[1; 2]; [3]] 4 = Some ConnectionError.
Proof. split; reflexivity. Qed.

Lemma byte_roundtrip v : is_int8 v → byte_to_int8 (int8_to_byte v) = v.
Proof.
  unfold is_int8, byte_to_int8, int8_to_byte. intros Hv.
  destruct (Z_lt_le_dec v 0) as [Hneg|Hpos].
  - replace (v mod 256) with (v + 256).
    + destruct (Z.ltb_spec (v + 256) 128); lia.
    + rewrite <- (Z.mod_small (v + 256) 256) by lia.
      replace (v + 256) with (v + 1 * 256) at 1 by lia.
      by rewrite Z_mod_plus_full.
  - rewrite Z.mod_small by lia. destruct (Z.ltb_spec v 128); lia.
Qed.

Lemma frombuffer_tobytes row : Forall is_int8 row → frombuffer (tobytes row) = row.
Proof.
  unfold frombuffer, tobytes. induction 1 as [|v row Hv _ IH]; [done|].
  rewrite !fmap_cons. by rewrite byte_roundtrip, IH.
Qed.

Lemma recv_row_stream (sock : list (list Z)) (row more : list Z) :
  Forall is_int8 row → Forall (λ seg, seg ≠ []) sock →
  concat sock = tobytes row ++ more →
  ∃ rest,
    recv_row sock (length row) = Some (Received row rest) ∧
    concat rest = more ∧ Forall (λ seg, seg ≠ []) rest.
Proof.
  intros Hrow Hne Hcat. unfold recv_row, recv_exact.
  assert (length (tobytes row) = length row) as Hlen
    by (unfold tobytes; by rewrite length_fmap).
  destruct (recv_exact_loop_spec (length row) (length row) sock [] Hne)
    as [Hok _]; [simpl; lia|].
  destruct Hok as (rest & -> & Hrest & Hne').
  { simpl. rewrite Hcat, length_app. lia. }
  simpl in *. rewrite Nat.sub_0_r in *. rewrite Hcat in *.
  rewrite take_app_length' by done. rewrite drop_app_length' in Hrest by done.
  exists rest. by rewrite frombuffer_tobytes.
Qed.

(** X17. Rows need no framing on the wire.  If the data on their way to a
    socket are the bytes of [int8] rows of [Ny] cells each, one row after
    the other and then [more], then, however the bytes are cut into
    segments, as many calls of [recv_row] as there are rows return these
    rows in order and leave [more] on the socket. *)
Theorem rows_arrive Ny (rows : list (list Z)) (sock : list (list Z))
    (more : list Z) :
  Forall (λ row, length row = Ny ∧ Forall is_int8 row) rows →
  Forall (λ seg, seg ≠ []) sock →
  concat sock = concat (tobytes <$> rows) ++ more →
  ∃ rest,
    recv_rows (length rows) sock Ny = Some (Received rows rest) ∧
    concat rest = more ∧ Forall (λ seg, seg ≠ []) rest.
Proof.
  intros Hrows. revert sock. induction Hrows as [|row rows [Hl Hi] _ IH];
    intros sock Hne Hcat.
  { exists sock. by simpl in *. }
  rewrite fmap_cons in Hcat. simpl in Hcat. rewrite <- app_assoc in Hcat.
  destruct (recv_row_stream sock row _ Hi Hne Hcat) as (sock1 & Hrow & Hcat1 & Hne1).
  destruct (IH sock1 Hne1 Hcat1) as (rest & Hrest & Hmore & Hne2).
  exists rest. cbn [length recv_rows]. rewrite <- Hl, Hrow, Hl, Hrest. done.
Qed.

Lemma rows_arrive_witness :
  ∃ rest,
    recv_rows (length [[1; -1; 2]; [0; 127; -128]])
      [[1; 255]; [2; 0; 127]; [128; 9]] 3
    = Some (Received [[1; -1; 2]; [0; 127; -128]] rest) ∧
    concat rest = [9] ∧ Forall (λ seg, seg ≠ []) rest.
Proof.
  apply rows_arrive.
  - repeat constructor; unfold is_int8; lia.
  - repeat constructor; discriminate.
  - reflexivity.
Defined.

Lemma send_rows_stream (rows : list (list Z)) (sock : list (list Z)) :
  Forall (λ seg, seg ≠ []) sock →
  concat (foldl send_row sock rows) = concat sock ++ concat (tobytes <$> rows) ∧
  Forall (λ seg, seg ≠ []) (foldl send_row sock rows).
Proof.
  revert sock. induction rows as [|row rows IH]; intros sock Hne.
  { simpl. by rewrite app_nil_r. }
  cbn [foldl]. rewrite fmap_cons. simpl. unfold send_row at 2 4.
  destruct (decide (row = [])) as [->|Hrow].
  - destruct (IH sock Hne) as [-> ?]. done.
  - destruct (IH (sock ++ [tobytes row])) as [-> ?].
    + apply Forall_app. split; [done|]. apply Forall_singleton.
      by destruct row.
    + split; [|done]. rewrite concat_app. simpl.
      by rewrite app_nil_r, <- app_assoc.
Qed.

(** X18. What [send_row] sends, [recv_row] receives: after the rows of a
    list of [int8] rows of [Ny] cells have been sent on a fresh channel,
    one [send_row] each, as many calls of [recv_row] at the other end
    return the same rows in the same order and leave the channel empty. *)
Theorem send_recv_rows Ny (rows : list (list Z)) :
  Forall (λ row, length row = Ny ∧ Forall is_int8 row) rows →
  recv_rows (length rows) (foldl send_row [] rows) Ny = Some (Received rows []).
Proof.
  intros Hrows.
  destruct (send_rows_stream rows [] (Forall_nil_2 _)) as [Hcat Hne].
  simpl in Hcat. revert Hcat Hne. generalize (foldl send_row [] rows).
  induction Hrows as [|row rows [Hl Hi] _ IH]; intros sock Hcat Hne.
  { simpl in *. f_equal. f_equal.
    destruct sock as [|seg sock]; [done|]. exfalso.
    apply Forall_cons in Hne as [Hseg _]. destruct seg; [done|]. done. }
  rewrite fmap_cons in Hcat. simpl in Hcat.
  destruct (recv_row_stream sock row _ Hi Hne Hcat) as (sock1 & Hrow & Hcat1 & Hne1).
  cbn [length recv_rows]. rewrite <- Hl, Hrow, Hl. by rewrite (IH sock1).
Qed.

Lemma send_recv_rows_witness :
  recv_rows (length [[1; -1; 2]; [0; 127; -128]])
    (foldl send_row [] [[1; -1; 2]; [0; 127; -128]]) 3
  = Some (Received [[1; -1; 2]; [0; 127; -128]] []).
Proof.
  apply send_recv_rows. repeat constructor; unfold is_int8; lia.
Defined.
(** ** The threaded variant *)

#[local] Arguments update_cell : simpl never.
#[local] Arguments update_row : simpl never.
#[local] Arguments next_state : simpl never.

Lemma foldl_ext_in {A B} (F G : A → B → A) (l : list B) (a : A) :
  (∀ a x, x ∈ l → F a x = G a x) → foldl F a l = foldl G a l.
Proof.
  revert a. induction l as [|x l IH]; intros a H; [done|]. simpl.
  rewrite H by apply list_elem_of_here.
  apply IH. intros a' y Hy. apply H. by apply list_elem_of_further.
Qed.

(** The rows [[i0, i0 + n)] of the output after the row loop has run over
    them; the other rows are as before. *)
Lemma update_rows_from padded Ny p f new g i0 n :
  has_cols Ny new → (i0 + n ≤ length new)%nat →
  let st := foldl (λ st i, update_row padded Ny p f i st) (new, g) (seq i0 n) in
  length st.1 = length new ∧ has_cols Ny st.1 ∧ stream st.2 = stream g ∧
  (∀ i j, (i0 ≤ i < i0 + n)%nat → (j < Ny)%nat →
     ∃ k, cell st.1 i j = Some (next_state padded Ny p f i j (stream g k))) ∧
  (∀ i j, ¬ (i0 ≤ i < i0 + n)%nat → cell st.1 i j = cell new i j).
Proof.
  intros Hc. cbv zeta. induction n as [|n IH]; intros Hr.
  { simpl. repeat split; try done. intros i j Hi. lia. }
  rewrite seq_S, foldl_app. simpl.
  destruct IH as (Hlen & Hcols & Hs & Hdone & Hrest); [lia|].
  destruct (foldl _ (new, g) (seq i0 n)) as [new1 g1]. simpl in *.
  destruct (update_row_spec padded Ny p f (i0 + n) new1 g1 Hcols ltac:(lia))
    as (Hlen2 & Hcols2 & Hs2 & Hrow & Hother).
  destruct (update_row _ _ _ _ (i0 + n)%nat (new1, g1)) as [new2 g2]. simpl in *.
  split; [congruence|]. split; [done|]. split; [congruence|]. split.
  - intros i j Hi Hj. destruct (decide (i = i0 + n)%nat) as [->|Hne].
    + destruct (Hrow j Hj) as [k Hk]. exists k. by rewrite Hk, Hs.
    + rewrite Hother by done. apply Hdone; lia.
  - intros i j Hi. rewrite Hother by lia. apply Hrest. lia.
Qed.

Section threads.
Context (Ny : nat) (grid : list (list Z)).

Lemma at2_padded_inner (ni nj : Z) :
  0 ≤ ni < Z.of_nat (length grid) →
  at2 (padded_block Ny grid None None) (ni + 1) nj = at2 grid ni nj.
Proof.
  intros Hn. unfold at2, padded_block.
  replace (Z.to_nat (ni + 1)) with (S (Z.to_nat ni)) by lia. simpl.
  by rewrite lookup_app_l by lia.
Qed.

Lemma at2_padded_outer (ni nj : Z) :
  ni = -1 ∨ ni = Z.of_nat (length grid) →
  (at2 (padded_block Ny grid None None) (ni + 1) nj =? BURN) = false.
Proof.
  intros Hn. unfold at2, padded_block.
  assert (∀ k, default EMPTY (replicate Ny EMPTY !! k) = EMPTY) as Hrep.
  { intros k. destruct (replicate Ny EMPTY !! k) as [c|] eqn:Hk; [|done].
    apply lookup_replicate in Hk as [-> _]. done. }
  destruct Hn as [-> | ->].
  - simpl. by rewrite Hrep.
  - replace (Z.to_nat (Z.of_nat (length grid) + 1)) with (S (length grid)) by lia.
    simpl. rewrite lookup_app_r by lia. rewrite Nat.sub_diag. simpl.
    by rewrite Hrep.
Qed.

(** On a row of the grid the scan of a thread reads what [update_block]
    reads in the padded array. *)
Lemma thread_scan_dj_inner i j di djs :
  0 ≤ Z.of_nat i + di < Z.of_nat (length grid) →
  thread_scan_dj grid Ny (Z.of_nat i + di) j di djs
  = scan_dj (padded_block Ny grid None None) Ny i j di djs.
Proof.
  intros Hn. induction djs as [|dj djs IH]; [done|]. simpl.
  replace (Z.of_nat i + 1 + di) with (Z.of_nat i + di + 1) by lia.
  rewrite at2_padded_inner by done. by rewrite IH.
Qed.

(** A row a thread skips is a row of [EMPTY] cells for [update_block]. *)
Lemma scan_dj_outer i j di djs :
  Z.of_nat i + di = -1 ∨ Z.of_nat i + di = Z.of_nat (length grid) →
  scan_dj (padded_block Ny grid None None) Ny i j di djs = false.
Proof.
  intros Hn. induction djs as [|dj djs IH]; [done|]. simpl.
  replace (Z.of_nat i + 1 + di) with (Z.of_nat i + di + 1) by lia.
  rewrite at2_padded_outer by done. rewrite IH.
  by repeat match goal with |- context [if ?b then _ else _] => destruct b end.
Qed.

Lemma thread_scan_di_eq i j dis :
  (i < length grid)%nat → Forall (λ d, -1 ≤ d ≤ 1) dis →
  thread_scan_di grid (length grid) Ny i j dis
  = scan_di (padded_block Ny grid None None) Ny i j dis.
Proof.
  intros Hi. induction 1 as [|di dis Hd _ IH]; [done|].
  cbn [thread_scan_di scan_di]. cbv zeta.
  destruct ((Z.of_nat i + di <? 0) || (Z.of_nat i + di >=? Z.of_nat (length grid)))
    eqn:Hout.
  - rewrite scan_dj_outer; [done|].
    apply orb_true_iff in Hout as [Hlo|Hhi].
    + apply Z.ltb_lt in Hlo. lia.
    + rewrite Z.geb_leb in Hhi. apply Z.leb_le in Hhi. lia.
  - apply orb_false_iff in Hout as [Hlo Hhi].
    apply Z.ltb_ge in Hlo. rewrite Z.geb_leb in Hhi. apply Z.leb_gt in Hhi.
    rewrite thread_scan_dj_inner by lia. by rewrite IH.
Qed.

(** The loop body of a thread is the loop body of [update_block] on the
    whole grid between two rows of [EMPTY] cells. *)
Lemma thread_cell_eq p f i j st :
  (i < length grid)%nat →
  thread_cell grid (length grid) Ny p f i j st
  = update_cell (padded_block Ny grid None None) Ny p f i j st.
Proof.
  intros Hi. unfold thread_cell, update_cell, moore_burning.
  destruct st as [new g].
  rewrite at2_padded_inner by lia.
  rewrite thread_scan_di_eq; [done | done |].
  repeat (apply Forall_cons; split; [lia|]). apply Forall_nil_2.
Qed.

Lemma thread_rows_eq p f i0 i1 st :
  (i1 ≤ length grid)%nat →
  thread_rows Ny grid p f i0 i1 st
  = foldl (λ st i, update_row (padded_block Ny grid None None) Ny p f i st)
      st (seq i0 (i1 - i0)).
Proof.
  intros Hi1. unfold thread_rows. apply foldl_ext_in.
  intros st' i Hi. apply elem_of_seq in Hi. unfold update_row.
  apply foldl_ext_in. intros st'' j _. apply thread_cell_eq. lia.
Qed.
End threads.
Lemma thread_range_hi Nx nthreads t :
  (t < nthreads)%nat → ((thread_range Nx nthreads t).2 ≤ Nx)%nat.
Proof.
  intros Ht. unfold thread_range. cbv zeta. simpl.
  destruct (decide (t = nthreads - 1)%nat) as [_|Hne]; [done|].
  pose proof (Nat.Div0.mul_div_le Nx nthreads) as Hq.
  assert ((t + 1) * (Nx / nthreads) ≤ nthreads * (Nx / nthreads))%nat
    by (apply Nat.mul_le_mono_r; lia).
  lia.
Qed.

(** Every row of the grid is a row of some thread. *)
Lemma thread_range_covers Nx nthreads i :
  (0 < nthreads)%nat → (i < Nx)%nat →
  ∃ t, (t < nthreads)%nat ∧ in_range Nx nthreads t i.
Proof.
  intros Hn Hi. unfold in_range, thread_range. cbv zeta. simpl.
  set (q := (Nx / nthreads)%nat).
  destruct (decide ((nthreads - 1) * q ≤ i)%nat) as [Hlast|Hin].
  - exists (nthreads - 1)%nat. split; [lia|].
    rewrite decide_True by done. lia.
  - assert (0 < q)%nat as Hq by (destruct q; lia).
    exists (i / q)%nat.
    assert (i / q < nthreads - 1)%nat as Hlt.
    { apply Nat.Div0.div_lt_upper_bound. lia. }
    split; [lia|]. rewrite decide_False by lia.
    pose proof (Nat.div_mod_eq i q) as Hdm.
    pose proof (Nat.mod_upper_bound i q ltac:(lia)) as Hm.
    lia.
Qed.

Section phase.
Context (Ny : nat) (grid : list (list Z)) (nthreads : nat).

(** The rows some thread has done hold the quiet step of the grid, in
    whatever order the threads have worked. *)
Lemma threads_phase_quiet order :
  ∀ new_grid g (written : nat → Prop),
  has_cols Ny new_grid → length new_grid = length grid → rng_ok g →
  Forall (λ t, t < nthreads)%nat order →
  (∀ i j, written i → (i < length grid)%nat → (j < Ny)%nat →
     cell new_grid i j
     = Some (next_state (padded_block Ny grid None None) Ny 0 0 i j 0)) →
  let st := foldl (λ st t,
                     let '(i0, i1) := thread_range (length grid) nthreads t in
                     thread_rows Ny grid 0 0 i0 i1 st) (new_grid, g) order in
  length st.1 = length grid ∧ has_cols Ny st.1 ∧ stream st.2 = stream g ∧
  ∀ i j, written i ∨ (∃ t, t ∈ order ∧ in_range (length grid) nthreads t i) →
    (i < length grid)%nat → (j < Ny)%nat →
    cell st.1 i j
    = Some (next_state (padded_block Ny grid None None) Ny 0 0 i j 0).
Proof.
  induction order as [|t order IH]; intros new g written Hc Hl Hg Hts Hdone.
  { simpl. repeat split; try done. intros i j [Hd|(t & Ht & _)]; [auto|].
    by apply elem_of_nil in Ht. }
  apply Forall_cons in Hts as [Ht Hts]. cbn [foldl]. cbv zeta.
  pose proof (thread_range_hi (length grid) nthreads t Ht) as Hhi.
  unfold in_range in *.
  destruct (thread_range (length grid) nthreads t) as [i0 i1] eqn:Hr.
  simpl in Hhi. rewrite thread_rows_eq by done.
  assert (∃ new1 g1,
    foldl (λ st i, update_row (padded_block Ny grid None None) Ny 0 0 i st)
      (new, g) (seq i0 (i1 - i0)) = (new1, g1) ∧
    length new1 = length grid ∧ has_cols Ny new1 ∧ stream g1 = stream g ∧
    (∀ i j, (i0 ≤ i < i1)%nat → (j < Ny)%nat →
       cell new1 i j
       = Some (next_state (padded_block Ny grid None None) Ny 0 0 i j 0)) ∧
    (∀ i j, ¬ (i0 ≤ i < i1)%nat → cell new1 i j = cell new i j))
    as (new1 & g1 & -> & Hl1 & Hc1 & Hs1 & Hin & Hout).
  { destruct (decide (i0 ≤ i1)%nat) as [Hle|Hgt].
    - destruct (update_rows_from (padded_block Ny grid None None) Ny 0 0
                  new g i0 (i1 - i0) Hc ltac:(lia))
        as (Hl1 & Hc1 & Hs1 & Hin & Hout).
      destruct (foldl _ (new, g) (seq i0 (i1 - i0))) as [new1 g1]. simpl in *.
      exists new1, g1. repeat split; try done; try congruence.
      + intros i j Hi Hj. destruct (Hin i j ltac:(lia) Hj) as [k ->].
        f_equal. apply next_state_no_draw, Hg.
      + intros i j Hi. apply Hout. lia.
    - replace (i1 - i0)%nat with 0%nat by lia. simpl.
      exists new, g. repeat split; try done. intros i j Hi. lia. }
  destruct (IH new1 g1 (λ i, written i ∨ (i0 ≤ i < i1)%nat) Hc1 Hl1)
    as (Hl2 & Hc2 & Hs2 & Hcells); [| done | |].
  { intros n. rewrite Hs1. apply Hg. }
  { intros i j [Hd|Hi] Hlt Hj; [|by apply Hin].
    destruct (decide (i0 ≤ i < i1)%nat) as [Hi|Hi]; [by apply Hin|].
    rewrite Hout by done. by apply Hdone. }
  split; [done|]. split; [done|]. split; [congruence|].
  intros i j Hcase Hi Hj. apply Hcells; [|done|done].
  destruct Hcase as [Hd|(t' & Ht' & Hin')]; [by left; left|].
  apply elem_of_cons in Ht' as [->|Ht'].
  - rewrite Hr in Hin'. simpl in Hin'. by left; right.
  - right. by exists t'.
Qed.
End phase.

(** Without growth and lightning one step of the threads leaves the quiet
    step of the grid in both arrays, whatever the order of the threads. *)
Lemma threads_step_quiet_eq Ny grid new_grid nthreads order g :
  (0 < nthreads)%nat → order ≡ₚ seq 0 nthreads →
  has_cols Ny grid → has_cols Ny new_grid → length new_grid = length grid →
  rng_ok g →
  ∃ g', threads_step Ny 0 0 nthreads order (grid, new_grid, g)
        = (quiet_step (padded_block Ny grid None None) Ny 0 (length grid),
           quiet_step (padded_block Ny grid None None) Ny 0 (length grid), g')
        ∧ stream g' = stream g.
Proof.
  intros Hn Hperm Hcg Hcn Hl Hg. unfold threads_step.
  destruct (threads_phase_quiet Ny grid nthreads order new_grid g (λ _, False)
              Hcn Hl Hg) as (Hl1 & Hc1 & Hs1 & Hcells).
  { apply Forall_forall. intros t Ht. rewrite Hperm in Ht.
    apply elem_of_seq in Ht. lia. }
  { by intros i j []. }
  destruct (foldl _ (new_grid, g) order) as [new1 g1]. simpl in *.
  assert (new1 = quiet_step (padded_block Ny grid None None) Ny 0 (length grid))
    as ->.
  { apply (grid_ext _ _ Ny); [done | apply quiet_step_has_cols | |].
    - by rewrite quiet_step_length.
    - intros i j Hi Hj. rewrite Hl1 in Hi. rewrite cell_quiet_step by done.
      simpl. apply Hcells; [|done|done]. right.
      destruct (thread_range_covers (length grid) nthreads i Hn Hi)
        as (t & Ht & Hin).
      exists t. split; [|done]. rewrite Hperm. apply elem_of_seq. lia. }
  exists g1. split; [|done].
  by rewrite (assign_full_same Ny) by (done || by rewrite quiet_step_length).
Qed.

(** X19. One thread of the threaded variant, working on rows [[i0, i1)] of
    a grid: it leaves the shape of [new_grid] and every row outside
    [[i0, i1)] as they were, and it writes into every cell of its rows the
    code that [update_block] gives that cell on the whole grid taken as one
    block without neighbours, for some draw of the generator.  The rows
    above the first and below the last, which the thread skips in its scan,
    are the rows of [EMPTY] cells that [update_block] pads with. *)
Theorem thread_rows_writes Ny grid new_grid p f i0 i1 g :
  has_cols Ny new_grid → length new_grid = length grid →
  (i1 ≤ length grid)%nat →
  let st := thread_rows Ny grid p f i0 i1 (new_grid, g) in
  length st.1 = length new_grid ∧ has_cols Ny st.1 ∧
  (∀ i j, (i0 ≤ i < i1)%nat → (j < Ny)%nat →
     ∃ k, cell st.1 i j
          = Some (next_state (padded_block Ny grid None None) Ny p f i j
                    (stream g k))) ∧
  (∀ i j, ¬ (i0 ≤ i < i1)%nat → cell st.1 i j = cell new_grid i j).
Proof.
  intros Hc Hl Hi1. cbv zeta. rewrite thread_rows_eq by done.
  destruct (decide (i0 ≤ i1)%nat) as [Hle|Hgt].
  - destruct (update_rows_from (padded_block Ny grid None None) Ny p f
                new_grid g i0 (i1 - i0) Hc ltac:(lia))
      as (Hl1 & Hc1 & _ & Hin & Hout).
    destruct (foldl _ (new_grid, g) (seq i0 (i1 - i0))) as [new1 g1].
    simpl in *. repeat split; try done.
    + intros i j Hi Hj. apply Hin; [lia|done].
    + intros i j Hi. apply Hout. lia.
  - replace (i1 - i0)%nat with 0%nat by lia. simpl.
    repeat split; try done. intros i j Hi. lia.
Qed.

Lemma thread_rows_writes_witness :
  let st := thread_rows 4 forest4 (1 # 3) (3 # 4) 1 3 (forest4, half_rng) in
  length st.1 = length forest4 ∧ has_cols 4 st.1 ∧
  (∀ i j, (1 ≤ i < 3)%nat → (j < 4)%nat →
     ∃ k, cell st.1 i j
          = Some (next_state (padded_block 4 forest4 None None) 4 (1 # 3)
                    (3 # 4) i j (stream half_rng k))) ∧
  (∀ i j, ¬ (1 ≤ i < 3)%nat → cell st.1 i j = cell forest4 i j).
Proof.
  apply thread_rows_writes.
  - apply has_cols_forest4.
  - reflexivity.
  - simpl. lia.
Defined.

(** X20. Without growth and lightning ([p = 0], [f = 0]), with at least one
    thread and in whatever order the threads do their rows, one step of the
    threaded variant leaves in [grid] and in [new_grid] the array that
    [update_block] returns for the whole grid as one block without
    neighbours; the contents of [new_grid] before the step do not matter.
    This holds for any number of threads, also more threads than rows. *)
Theorem threads_step_schedule Ny grid new_grid nthreads order g :
  (0 < nthreads)%nat → order ≡ₚ seq 0 nthreads →
  has_cols Ny grid → has_cols Ny new_grid → length new_grid = length grid →
  rng_ok g →
  ∃ out g1 g2,
    update_block Ny grid None None 0 0 g = Some (out, g1) ∧
    threads_step Ny 0 0 nthreads order (grid, new_grid, g) = (out, out, g2).
Proof.
  intros Hn Hperm Hcg Hcn Hl Hg.
  destruct (update_block_quiet Ny grid None None g Hcg) as [g1 Hub];
    [apply ghost_ok_None | apply ghost_ok_None | done |].
  destruct (threads_step_quiet_eq Ny grid new_grid nthreads order g)
    as (g2 & Hts & _); try done.
  rewrite Hub, Hts. eauto.
Qed.

Lemma threads_step_schedule_witness :
  ∃ out g1 g2,
    update_block 4 forest4 None None 0 0 half_rng = Some (out, g1) ∧
    threads_step 4 0 0 3 [2; 0; 1]%nat (forest4, forest4, half_rng)
    = (out, out, g2).
Proof.
  apply threads_step_schedule.
  - lia.
  - simpl. etrans; [apply perm_swap|]. apply perm_skip, perm_swap.
  - apply has_cols_forest4.
  - apply has_cols_forest4.
  - reflexivity.
  - apply rng_ok_half.
Defined.

(** X21. Without growth and lightning, on a grid whose cells hold the three
    codes, for any number of steps, at least one thread and any order of
    the threads in each step, the loop of the threaded variant and the loop
    of the sequential [run] end with the same grid. *)
Theorem threads_loop_agrees Ny nthreads orders :
  ∀ grid new_grid g g' counts,
  (0 < nthreads)%nat → Forall (λ order, order ≡ₚ seq 0 nthreads) orders →
  has_cols Ny grid → valid_grid grid →
  has_cols Ny new_grid → length new_grid = length grid →
  rng_ok g → rng_ok g' →
  (threads_loop Ny 0 0 nthreads orders (grid, new_grid, g)).1.1
  = (run_loop Ny 0 0 (length orders) (grid, g', counts)).1.1.
Proof.
  induction orders as [|order orders IH];
    intros grid new_grid g g' counts Hn Hos Hcg Hv Hcn Hl Hg Hg'; [done|].
  apply Forall_cons in Hos as [Ho Hos].
  cbn [threads_loop run_loop length].
  destruct (threads_step_quiet_eq Ny grid new_grid nthreads order g)
    as (g1 & -> & Hs1); try done.
  pose proof (step_quiet Ny grid g' Hcg Hv Hg') as Hq.
  pose proof (step_stream Ny grid 0 0 g') as Hs'.
  destruct (step Ny grid 0 0 g') as [grid1 g1']. simpl in Hq, Hs'. subst grid1.
  apply IH; try done.
  - apply quiet_step_has_cols.
  - apply quiet_step_valid.
  - apply quiet_step_has_cols.
  - intros n. rewrite Hs1. apply Hg.
  - intros n. rewrite Hs'. apply Hg'.
Qed.

Lemma threads_loop_agrees_witness :
  (threads_loop 4 0 0 2 [[1; 0]; [0; 1]; [1; 0]]%nat
     (forest4, forest4, half_rng)).1.1
  = (run_loop 4 0 0 3 (forest4, half_rng, [])).1.1.
Proof.
  apply (threads_loop_agrees 4 2 [[1; 0]; [0; 1]; [1; 0]]%nat).
  - lia.
  - repeat (apply Forall_cons; split); try apply Forall_nil_2;
      simpl; try reflexivity; apply perm_swap.
  - apply has_cols_forest4.
  - apply valid_grid_forest4.
  - apply has_cols_forest4.
  - reflexivity.
  - apply rng_ok_half.
  - apply rng_ok_half.
Defined.
(** The spec's 4x4 scenario on a single partition. *)
Example update_block_4x4 :
  fst <$> update_block 4 [[1;1;1;1]; [1;1;2;1]; [1;1;1;1]; [1;1;1;1]]
            None None 0 0 half_rng
  = Some [[1;2;2;2]; [1;2;0;2]; [1;2;2;2]; [1;1;1;1]].
Proof. vm_compute. reflexivity. Qed.

(** The threaded variant on the same forest, two threads, the second one
    first: with [f = 3/4] and every draw one half each tree without a
    burning neighbour is struck. *)
Example threads_step_4x4 :
  (threads_step 4 (1 # 3) (3 # 4) 2 [1; 0]%nat (forest4, forest4, half_rng)).1.1
  = [[2; 2; 2; 2]; [2; 2; 0; 2]; [2; 2; 2; 2]; [2; 2; 2; 2]].
Proof. vm_compute. reflexivity. Qed.
